(** * The OPA authorization cache and batcher of the community API

    Shallow embedding of [src/services/opa/OpaService.ts] (class
    [OpaService]: cache key, cache, [query], [queryBatch]) and of
    [src/lib/opa/authorize.ts] ([authorize], [authorizeBatch],
    [authorizeAll], [authorizeAny], [getClientIp]), and of the request
    layer of [src/lib/api/base.ts] ([extractToken], [extractParams],
    [parseBody], [handleRequest], [handleError], [withoutAuth]).

    Conventions of the embedding:
    - a JavaScript object ([Record<string, unknown>]) is the list of its own
      enumerable string-keyed properties in enumeration order, the order in
      which [JSON.stringify] visits them (creation order for names that are
      not array indices);
    - numbers are the integers [JSON.stringify] prints in plain decimal;
    - strings are lists of 8-bit code units;
    - values have the types that the TypeScript interfaces declare: an
      [OpaDecision] is an object with a boolean [allow], so it is truthy and
      [decision.allow === true] is [allow];
    - the [Map] used as cache is a [gmap string _];
    - effectful code is written in a state-and-exception monad over a
      [World]: the cache, the clock and the log of requests sent to the
      policy endpoint.  The clock ([Date.now]) and the endpoint ([fetch]) are
      oracles, fixed but arbitrary;
    - an [async] function is split at its [await]: what runs before the
      call is sent, and the continuation that runs when the call has ended.
      [Promise.all] runs the continuations in an order given as a list of
      positions, the schedule;
    - one request handler is followed from start to end, no other handler
      touching the cache meanwhile. *)

From Stdlib Require Import Ascii.
From stdpp Require Import gmap strings list pretty sorting.

Open Scope string_scope.

(** ** JavaScript values and [JSON.stringify] *)

#[local] Unset Elimination Schemes.
Inductive js_value : Type :=
| JUndefined
| JNull
| JBool (b : bool)
| JNumber (n : Z)
| JString (s : string)
| JArray (items : list js_value)
| JObject (props : list (string * js_value)).
#[local] Set Elimination Schemes.

(** A [Record<string, unknown>]. *)
Abbreviation js_record := (list (string * js_value)).

Module JSON.

Definition hex_digit (n : N) : ascii :=
  ascii_of_N (if (n <? 10)%N then 48 + n else 87 + n).

(** [UnicodeEscape]: backslash, u and four lowercase hexadecimal digits. *)
Definition UnicodeEscape (c : ascii) : string :=
  let n := N_of_ascii c in
  String "\" (String "u" (String "0" (String "0"
    (String (hex_digit (n / 16)) (String (hex_digit (n mod 16)) EmptyString))))).

(** One code unit of [QuoteJSONString]. *)
Definition quote_code_unit (c : ascii) : string :=
  let n := N_of_ascii c in
  if (n =? 8)%N then "\b"
  else if (n =? 9)%N then "\t"
  else if (n =? 10)%N then "\n"
  else if (n =? 12)%N then "\f"
  else if (n =? 13)%N then "\r"
  else if (n =? 34)%N then String "\" (String (ascii_of_N 34) EmptyString)
  else if (n =? 92)%N then "\\"
  else if (n <? 32)%N then UnicodeEscape c
  else String c EmptyString.

Fixpoint quote_code_units (s : string) : string :=
  match s with
  | EmptyString => EmptyString
  | String c s' => quote_code_unit c +:+ quote_code_units s'
  end.

Definition dquote : ascii := ascii_of_N 34.

Definition QuoteJSONString (s : string) : string :=
  String dquote (quote_code_units s +:+ String dquote EmptyString).

(** Elements joined by a comma, as in [SerializeJSONObject] and
    [SerializeJSONArray]. *)
Fixpoint join_comma (parts : list string) : string :=
  match parts with
  | [] => EmptyString
  | [p] => p
  | p :: rest => p +:+ "," +:+ join_comma rest
  end.

(** [SerializeJSONProperty]: [None] is the [undefined] result, which an
    object omits and an array prints as [null]. *)
Fixpoint SerializeJSONProperty (v : js_value) : option string :=
  match v with
  | JUndefined => None
  | JNull => Some "null"
  | JBool true => Some "true"
  | JBool false => Some "false"
  | JNumber n => Some (pretty n)
  | JString s => Some (QuoteJSONString s)
  | JArray items =>
      let elements :=
        (fix go (l : list js_value) : list string :=
           match l with
           | [] => []
           | x :: l' => default "null" (SerializeJSONProperty x) :: go l'
           end) items in
      Some ("[" +:+ join_comma elements +:+ "]")
  | JObject props =>
      let members :=
        (fix go (l : js_record) : list string :=
           match l with
           | [] => []
           | (k, x) :: l' =>
               match SerializeJSONProperty x with
               | Some s => (QuoteJSONString k +:+ ":" +:+ s) :: go l'
               | None => go l'
               end
           end) props in
      Some ("{" +:+ join_comma members +:+ "}")
  end.

(** The members of an object, one string per property that is kept. *)
Fixpoint members (l : js_record) : list string :=
  match l with
  | [] => []
  | (k, x) :: l' =>
      match SerializeJSONProperty x with
      | Some s => (QuoteJSONString k +:+ ":" +:+ s) :: members l'
      | None => members l'
      end
  end.

(** [JSON.stringify] of an object literal: always a string. *)
Definition stringify_object (props : js_record) : string :=
  "{" +:+ join_comma (members props) +:+ "}".

(** What follows the first member in the text of an object. *)
Definition more_members (rest : list string) : string :=
  match rest with
  | [] => EmptyString
  | _ => "," +:+ join_comma rest
  end.

Definition hex_value (c : ascii) : N :=
  let n := N_of_ascii c in
  if (n <? 58)%N then n - 48 else n - 87.

(** Reads back the code unit that starts a quoted string's contents; the
    closing quote reads as nothing. *)
Definition read_code_unit (s : string) : option (ascii * string) :=
  match s with
  | EmptyString => None
  | String c1 rest1 =>
      if (N_of_ascii c1 =? 34)%N then None
      else if (N_of_ascii c1 =? 92)%N then
        match rest1 with
        | EmptyString => None
        | String c2 rest2 =>
            let n := N_of_ascii c2 in
            if (n =? 98)%N then Some (ascii_of_N 8, rest2)
            else if (n =? 116)%N then Some (ascii_of_N 9, rest2)
            else if (n =? 110)%N then Some (ascii_of_N 10, rest2)
            else if (n =? 102)%N then Some (ascii_of_N 12, rest2)
            else if (n =? 114)%N then Some (ascii_of_N 13, rest2)
            else if (n =? 117)%N then
              match rest2 with
              | String _ (String _ (String h1 (String h2 rest6))) =>
                  Some (ascii_of_N (16 * hex_value h1 + hex_value h2), rest6)
              | _ => None
              end
            else Some (c2, rest2)
        end
      else Some (c1, rest1)
  end.

End JSON.

(** ** The data of [OpaService.ts] *)

Record OpaEnv : Type := {
  now : string;
  ip : js_value;
}.

Record OpaInput : Type := {
  uid : string;
  tokenClaims : js_record;
  action : string;
  resource : js_record;
  env : OpaEnv;
}.

(** [getCacheKey]: the key is [JSON.stringify] of the object literal
    [{ uid, action, resource }], built from three fields of the input. *)
Definition getCacheKey (input : OpaInput) : string :=
  JSON.stringify_object
    [ ("uid", JString (uid input));
      ("action", JString (action input));
      ("resource", JObject (resource input)) ].


Record OpaDecision : Type := {
  allow : bool;
  reason : option string;
  other_fields : js_record;
}.

Record OpaBatchItem : Type := {
  item_action : string;
  item_resource : js_record;
}.

Record OpaBatchResult : Type := {
  index : nat;
  batch_allow : bool;
  batch_decision : OpaDecision;
}.

Record CacheEntry : Type := {
  decision : OpaDecision;
  expiry : Z;
}.

(** The fields of an [OpaService] that are set once by the constructor; the
    [cache] field is mutable and lives in the [World]. *)
Record OpaService : Type := {
  baseUrl : string;
  cacheEnabled : bool;
  cacheTtlMs : Z;
}.

Record ServiceOptions : Type := {
  opt_cacheEnabled : option bool;
  opt_cacheTtlMs : option Z;
}.

(** The constructor: [options.cacheEnabled ?? true],
    [options.cacheTtlMs ?? 30000]. *)
Definition new_OpaService (url : string) (options : ServiceOptions) : OpaService :=
  {| baseUrl := url;
     cacheEnabled := default true (opt_cacheEnabled options);
     cacheTtlMs := default 30000%Z (opt_cacheTtlMs options) |}.

(** ** Exceptions, responses and the world *)

(** A thrown value: an [Error] with its message, or anything else. *)
Inductive js_error : Type :=
| JsError (message : string)
| NonError.

Inductive Outcome (A : Type) : Type :=
| Ok (a : A)
| Throw (e : js_error).
Arguments Ok {A} a.
Arguments Throw {A} e.

(** What [res.json()] resolves to, as far as [query] reads it: [null], on
    which reading [json.result] throws, or a value whose [result] property
    is a decision or is missing or falsy. *)
Inductive ResponseJson : Type :=
| JsonNull
| JsonBody (result : option OpaDecision).

Record Response : Type := {
  ok : bool;
  status : N;
  text : Outcome string;
  json : Outcome ResponseJson;
}.

(** How a [fetch] call ends: rejected (network failure), or a response. *)
Inductive FetchOutcome : Type :=
| FetchRejected (e : js_error)
| Responded (res : Response).

Record DecodedIdToken : Type := {
  token_uid : string;
  token_fields : js_record;
}.

(** The external collaborators, fixed but arbitrary: the clock read by the
    [n]-th call of [Date.now] or [new Date], the policy endpoint answering
    the [n]-th request, the identity service, the date formatter and the
    [OPA_URL] environment variable. *)
Record Oracle : Type := {
  clock : nat -> Z;
  opa : nat -> OpaInput -> FetchOutcome;
  verifyIdToken : string -> Outcome DecodedIdToken;
  toISOString : Z -> string;
  env_OPA_URL : option string;
}.

Record World : Type := {
  cache : gmap string CacheEntry;
  clock_reads : nat;
  requests : list (string * OpaInput);
}.

Definition M (A : Type) : Type := World -> Outcome A * World.

Definition ret {A} (a : A) : M A := fun w => (Ok a, w).

Definition throw {A} (e : js_error) : M A := fun w => (Throw e, w).

Definition bind {A B} (m : M A) (f : A -> M B) : M B :=
  fun w =>
    match m w with
    | (Ok a, w') => f a w'
    | (Throw e, w') => (Throw e, w')
    end.

Definition try_catch {A} (m : M A) (handler : js_error -> M A) : M A :=
  fun w =>
    match m w with
    | (Ok a, w') => (Ok a, w')
    | (Throw e, w') => handler e w'
    end.

Definition lift {A} (r : Outcome A) : M A := fun w => (r, w).

Notation "x <- m ;; k" := (bind m (fun x => k))
  (at level 100, m at next level, right associativity).
Notation "m ;;; k" := (bind m (fun _ => k))
  (at level 100, right associativity).

(** A promise, seen from the code that holds it: already settled, or
    pending with the code that runs when the awaited call completes. *)
Inductive Promise (A : Type) : Type :=
| Settled (r : Outcome A)
| Pending (resume : M A).
Arguments Settled {A} r.
Arguments Pending {A} resume.

(** An [async] function runs up to its first suspension and hands back a
    promise; it never throws synchronously. *)
Definition Async (A : Type) : Type := World -> Promise A * World.

(** [await p] in sequential code: the caller resumes once [p] has settled. *)
Definition await {A} (call : Async A) : M A :=
  fun w =>
    match call w with
    | (Settled r, w') => (r, w')
    | (Pending resume, w') => resume w'
    end.

(** [error instanceof Error ? error.message : fallback] *)
Definition error_message (fallback : string) (e : js_error) : string :=
  match e with
  | JsError m => m
  | NonError => fallback
  end.

Definition null_result_message : string :=
  "Cannot read properties of null (reading 'result')".

Definition no_decision : OpaDecision :=
  {| allow := false; reason := Some "no decision returned"; other_fields := [] |}.

Definition error_decision (msg : string) : OpaDecision :=
  {| allow := false; reason := Some msg; other_fields := [] |}.

(** The world after one more reading of the clock. *)
Definition tick (w : World) : World :=
  {| cache := cache w; clock_reads := S (clock_reads w); requests := requests w |}.

Definition with_cache (c : gmap string CacheEntry) (w : World) : World :=
  {| cache := c; clock_reads := clock_reads w; requests := requests w |}.

(** ** [OpaService] *)

(** [{ index, allow: decision.allow, decision }] *)
Definition item_granted (i : nat) (d : OpaDecision) : OpaBatchResult :=
  {| index := i; batch_allow := allow d; batch_decision := d |}.

(** The result built in the [catch] of [queryBatch]. *)
Definition item_denied (i : nat) (e : js_error) : OpaBatchResult :=
  {| index := i; batch_allow := false;
     batch_decision := error_decision (error_message "OPA query failed" e) |}.

(** Stable sort by [index], as [results.sort((a, b) => a.index - b.index)]. *)
Fixpoint insert_by_index (r : OpaBatchResult) (l : list OpaBatchResult)
  : list OpaBatchResult :=
  match l with
  | [] => [r]
  | r' :: l' =>
      if (index r <=? index r')%nat then r :: r' :: l'
      else r' :: insert_by_index r l'
  end.

Fixpoint sort_by_index (l : list OpaBatchResult) : list OpaBatchResult :=
  match l with
  | [] => []
  | r :: l' => insert_by_index r (sort_by_index l')
  end.

(** The values of the settled promises of a list. *)
Definition fulfilled {A} (slots : list (Promise A)) : list A :=
  omap (fun p => match p with Settled (Ok a) => Some a | _ => None end) slots.

Fixpoint first_rejection {A} (slots : list (Promise A)) : option js_error :=
  match slots with
  | [] => None
  | Settled (Throw e) :: _ => Some e
  | _ :: slots' => first_rejection slots'
  end.

(** The promise in slot [j] completes: its continuation runs and the slot
    keeps the outcome.  A slot that is settled, or out of range, is left. *)
Definition complete {A} (j : nat) (st : list (Promise A) * option js_error)
  : World -> (list (Promise A) * option js_error) * World :=
  fun w =>
    match st.1 !! j with
    | Some (Pending resume) =>
        let (r, w') := resume w in
        let rejected :=
          match st.2, r with
          | None, Throw e => Some e
          | first, _ => first
          end in
        ((<[j := Settled r]> st.1, rejected), w')
    | _ => (st, w)
    end.

Fixpoint complete_all {A} (order : list nat) (st : list (Promise A) * option js_error)
  : World -> (list (Promise A) * option js_error) * World :=
  fun w =>
    match order with
    | [] => (st, w)
    | j :: order' => let (st', w') := complete j st w in complete_all order' st' w'
    end.

(** [await Promise.all(promises)].  The pending calls complete in the order
    [schedule] gives, and whatever it leaves out completes afterwards: every
    call ends.  The result is the list of values in the order of the
    promises, or the first rejection. *)
Definition Promise_all {A} (promises : list (Promise A)) (schedule : list nat)
  : M (list A) :=
  fun w =>
    let (st, w') :=
      complete_all (schedule ++ seq 0 (length promises))
        (promises, first_rejection promises) w in
    match st.2 with
    | Some e => (Throw e, w')
    | None => (Ok (fulfilled st.1), w')
    end.

(** [v === true]: only the boolean [true] is strictly equal to [true]. *)
Definition strictly_true (v : js_value) : bool :=
  match v with
  | JBool true => true
  | _ => false
  end.

(** [!!(decision && v === true)] for a [decision] that is an object. *)
Definition strict_allow (v : js_value) : bool :=
  negb (negb (true && strictly_true v)).

Section OpaService.

Context (E : Oracle) (this : OpaService).

(** [Date.now()], also the reading behind [new Date()]. *)
Definition Date_now : M Z :=
  fun w =>
    (Ok (clock E (clock_reads w)),
     {| cache := cache w; clock_reads := S (clock_reads w); requests := requests w |}).

Definition cache_get (key : string) : M (option CacheEntry) :=
  fun w => (Ok (cache w !! key), w).

Definition cache_delete (key : string) : M unit :=
  fun w =>
    (Ok tt,
     {| cache := delete key (cache w); clock_reads := clock_reads w;
        requests := requests w |}).

Definition cache_set (key : string) (entry : CacheEntry) : M unit :=
  fun w =>
    (Ok tt,
     {| cache := <[key := entry]> (cache w); clock_reads := clock_reads w;
        requests := requests w |}).

(** [fetch(url, { method: 'POST', ..., body: JSON.stringify({ input }) })]:
    the request is sent, and the endpoint's answer to it is what the
    returned promise will settle with. *)
Definition fetch (url : string) (input : OpaInput) : M FetchOutcome :=
  fun w =>
    (Ok (opa E (length (requests w)) input),
     {| cache := cache w; clock_reads := clock_reads w;
        requests := requests w ++ [(url, input)] |}).

Definition getCachedDecision (key : string) : M (option OpaDecision) :=
  if negb (cacheEnabled this) then ret None
  else
    cached <- cache_get key ;;
    match cached with
    | Some entry =>
        t <- Date_now ;;
        if (t <? expiry entry)%Z then ret (Some (decision entry))
        else (cache_delete key ;;; ret None)
    | None => ret None
    end.

Definition cacheDecision (key : string) (d : OpaDecision) : M unit :=
  if negb (cacheEnabled this) then ret tt
  else
    t <- Date_now ;;
    cache_set key {| decision := d; expiry := (t + cacheTtlMs this)%Z |}.

Definition clearCache : M unit :=
  fun w => (Ok tt, {| cache := ∅; clock_reads := clock_reads w; requests := requests w |}).

(** [query] after [await fetch(...)]: what runs once the call has ended. *)
Definition query_resume (cacheKey : string) (answer : FetchOutcome) : M OpaDecision :=
  match answer with
  | FetchRejected e => throw e
  | Responded res =>
      if negb (ok res) then
        body <- lift (text res) ;;
        throw (JsError ("OPA call failed " +:+ pretty (status res) +:+ ": " +:+ body))
      else
        parsed <- lift (json res) ;;
        result <- match parsed with
                  | JsonNull => throw (JsError null_result_message)
                  | JsonBody result => ret result
                  end ;;
        let d := default no_decision result in
        cacheDecision cacheKey d ;;;
        ret d
  end.

Definition query (input : OpaInput) : Async OpaDecision :=
  fun w =>
    let cacheKey := getCacheKey input in
    match getCachedDecision cacheKey w with
    | (Ok (Some cached), w') => (Settled (Ok cached), w')
    | (Ok None, w') =>
        let url := baseUrl this +:+ "/v1/data/authz/decision" in
        match fetch url input w' with
        | (Ok answer, w'') => (Pending (query_resume cacheKey answer), w'')
        | (Throw e, w'') => (Settled (Throw e), w'')
        end
    | (Throw e, w') => (Settled (Throw e), w')
    end.

(** [ip ?? null] *)
Definition or_null (v : js_value) : js_value :=
  match v with
  | JUndefined => JNull
  | _ => v
  end.

(** The [OpaInput] that [queryBatch] builds for an item. *)
Definition item_input (uid : string) (tokenClaims : js_record) (now : string)
    (ip : js_value) (item : OpaBatchItem) : OpaInput :=
  {| uid := uid; tokenClaims := tokenClaims;
     action := item_action item; resource := item_resource item;
     env := {| now := now; ip := or_null ip |} |}.

(** The first loop of [queryBatch]: item [i] is looked up in the cache and
    pushed on [results] or on [uncachedItems]. *)
Fixpoint check_cache (uid : string) (tokenClaims : js_record) (now : string)
    (ip : js_value) (i : nat) (items : list OpaBatchItem)
    (results : list OpaBatchResult) (uncachedItems : list (nat * OpaInput))
  : M (list OpaBatchResult * list (nat * OpaInput)) :=
  match items with
  | [] => ret (results, uncachedItems)
  | item :: items' =>
      let input := item_input uid tokenClaims now ip item in
      let cacheKey := getCacheKey input in
      cached <- getCachedDecision cacheKey ;;
      match cached with
      | Some d =>
          check_cache uid tokenClaims now ip (S i) items'
            (results ++ [item_granted i d]) uncachedItems
      | None =>
          check_cache uid tokenClaims now ip (S i) items'
            results (uncachedItems ++ [(i, input)])
      end
  end.

(** The [async] arrow function mapped over [uncachedItems]: [query] in a
    [try] whose [catch] turns the error into a deny for this item. *)
Definition query_item (entry : nat * OpaInput) : Async OpaBatchResult :=
  fun w =>
    match query entry.2 w with
    | (Settled (Ok d), w') => (Settled (Ok (item_granted entry.1 d)), w')
    | (Settled (Throw e), w') => (Settled (Ok (item_denied entry.1 e)), w')
    | (Pending resume, w') =>
        (Pending (try_catch (d <- resume ;; ret (item_granted entry.1 d))
                            (fun e => ret (item_denied entry.1 e))), w')
    end.

(** [uncachedItems.map(async ...)]: the calls start one after the other. *)
Fixpoint start_all {A B} (f : A -> Async B) (l : list A) : M (list (Promise B)) :=
  match l with
  | [] => ret []
  | a :: l' =>
      fun w =>
        let (p, w') := f a w in
        (ps <- start_all f l' ;; ret (p :: ps)) w'
  end.

Definition queryBatch (uid : string) (tokenClaims : js_record)
    (items : list OpaBatchItem) (ip : js_value) (schedule : list nat)
  : M (list OpaBatchResult) :=
  t <- Date_now ;;
  let now := toISOString E t in
  checked <- check_cache uid tokenClaims now ip 0 items [] [] ;;
  let results := checked.1 in
  let uncachedItems := checked.2 in
  if (length uncachedItems =? 0)%nat then ret (sort_by_index results)
  else
    promises <- start_all query_item uncachedItems ;;
    opaResults <- Promise_all promises schedule ;;
    ret (sort_by_index (results ++ opaResults)).

(** The [OpaInput] that [isAllowed] builds, [t] being the clock reading
    behind [new Date()]. *)
Definition single_input (uid : string) (tokenClaims : js_record) (action : string)
    (resource : js_record) (ip : js_value) (t : Z) : OpaInput :=
  {| uid := uid; tokenClaims := tokenClaims; action := action;
     resource := resource;
     env := {| now := toISOString E t; ip := or_null ip |} |}.

(** [allow] is [!!(decision && decision.allow === true)]: [decision] is an
    object, which is truthy, and [strict_allow] is the rest of the test on
    the value of its [allow]. *)
Definition isAllowed (uid : string) (tokenClaims : js_record) (action : string)
    (resource : js_record) (ip : js_value) : M (bool * OpaDecision) :=
  t <- Date_now ;;
  let input := single_input uid tokenClaims action resource ip t in
  d <- await (query input) ;;
  let allow := strict_allow (JBool (allow d)) in
  ret (allow, d).

Definition isAllAllowed (uid : string) (tokenClaims : js_record)
    (items : list OpaBatchItem) (ip : js_value) (schedule : list nat)
  : M (bool * list OpaBatchResult) :=
  results <- queryBatch uid tokenClaims items ip schedule ;;
  ret (forallb batch_allow results, results).

Definition isAnyAllowed (uid : string) (tokenClaims : js_record)
    (items : list OpaBatchItem) (ip : js_value) (schedule : list nat)
  : M (bool * list OpaBatchResult) :=
  results <- queryBatch uid tokenClaims items ip schedule ;;
  ret (existsb batch_allow results, results).

End OpaService.

(** ** [authorize.ts] *)

Record AuthResult : Type := {
  auth_allow : bool;
  auth_decision : string + OpaDecision;
  auth_uid : option string;
  auth_claims : js_record;
}.

Record BatchAuthRequest : Type := {
  req_action : string;
  req_resource : js_record;
  req_context : option js_record;
}.

(** [BatchAuthResult extends AuthResult] with the position of the request. *)
Record BatchAuthResult : Type := {
  auth : AuthResult;
  auth_index : nat;
}.

(** Property read [o.k] of a plain object, for an own property of [o] or a
    name that [Object.prototype] does not define (as [ip], [id], [email],
    [email_verified], [name] and [picture], the names read here): the
    value of the own property, [undefined] when [o] has no such property.
    The members of [Object.prototype] ([constructor], [toString], ...),
    which a read of a name that is not an own property would find, are
    not modelled. *)
Fixpoint js_get (k : string) (o : js_record) : js_value :=
  match o with
  | [] => JUndefined
  | (k', v) :: o' => if String.eqb k k' then v else js_get k o'
  end.

(** Property write: an existing property keeps its place. *)
Fixpoint js_set (k : string) (v : js_value) (o : js_record) : js_record :=
  match o with
  | [] => [(k, v)]
  | (k', v') :: o' => if String.eqb k k' then (k, v) :: o' else (k', v') :: js_set k v o'
  end.

(** [{ ...target, ...source }] *)
Definition js_spread (target source : js_record) : js_record :=
  fold_left (fun o kv => js_set kv.1 kv.2 o) source target.

(** The claims that [verifyToken] returns: four named fields of the decoded
    token, then all of its fields. *)
Definition token_claims (decodedToken : DecodedIdToken) : js_record :=
  let fields := token_fields decodedToken in
  js_spread
    [ ("email", js_get "email" fields);
      ("emailVerified", js_get "email_verified" fields);
      ("name", js_get "name" fields);
      ("picture", js_get "picture" fields) ]
    fields.

(** [{ allow: false, decision: msg, uid: null, claims: {} }] *)
Definition auth_denied (msg : string) : AuthResult :=
  {| auth_allow := false; auth_decision := inl msg;
     auth_uid := None; auth_claims := [] |}.

(** The result of a check that reached the policy. *)
Definition auth_checked (allowed : bool) (d : OpaDecision) (uid : string)
    (claims : js_record) : AuthResult :=
  {| auth_allow := allowed; auth_decision := inr d;
     auth_uid := Some uid; auth_claims := claims |}.

(** [!idToken]: no token, or the empty string. *)
Definition no_token (idToken : option string) : bool :=
  match idToken with
  | None => true
  | Some EmptyString => true
  | Some _ => false
  end.

Section Authorize.

Context (E : Oracle).

(** [process.env.OPA_URL || 'http://localhost:8181'] *)
Definition OPA_URL : string :=
  match env_OPA_URL E with
  | None => "http://localhost:8181"
  | Some EmptyString => "http://localhost:8181"
  | Some url => url
  end.

(** The singleton [opaService = new OpaService()]. *)
Definition opaService : OpaService :=
  new_OpaService OPA_URL {| opt_cacheEnabled := None; opt_cacheTtlMs := None |}.

(** [verifyToken]: whatever goes wrong is rethrown as one [Error]. *)
Definition verifyToken (idToken : string) : M (string * js_record) :=
  try_catch
    (decodedToken <- lift (verifyIdToken E idToken) ;;
     ret (token_uid decodedToken, token_claims decodedToken))
    (fun _ => throw (JsError "Invalid ID token")).

(** [context?.ip] *)
Definition context_ip (context : option js_record) : js_value :=
  match context with
  | Some c => js_get "ip" c
  | None => JUndefined
  end.

(** Past the guard [!idToken] the token is a string that is not empty. *)
Definition authorize (idToken : option string) (action : string)
    (resource : js_record) (context : option js_record) : M AuthResult :=
  if no_token idToken then ret (auth_denied "no-token")
  else
    try_catch
      (verified <- verifyToken (default EmptyString idToken) ;;
       let uid := verified.1 in
       let claims := verified.2 in
       checked <- isAllowed E opaService uid claims action resource
                    (context_ip context) ;;
       ret (auth_checked checked.1 checked.2 uid claims))
      (fun error =>
         ret (auth_denied (error_message "authorization-error" error))).

Definition authorizeBatch (idToken : option string)
    (reqs : list BatchAuthRequest) (schedule : list nat)
  : M (list BatchAuthResult) :=
  if no_token idToken then
    ret (imap (fun index _ =>
                 {| auth := auth_denied "no-token"; auth_index := index |}) reqs)
  else
    try_catch
      (verified <- verifyToken (default EmptyString idToken) ;;
       let uid := verified.1 in
       let claims := verified.2 in
       let items :=
         map (fun req => {| item_action := req_action req;
                            item_resource := req_resource req |}) reqs in
       opaResults <- queryBatch E opaService uid claims items
                       (context_ip (head reqs ≫= req_context)) schedule ;;
       ret (map (fun result =>
                   {| auth := auth_checked (batch_allow result)
                                (batch_decision result) uid claims;
                      auth_index := index result |}) opaResults))
      (fun error =>
         ret (imap (fun index _ =>
                      {| auth := auth_denied
                                   (error_message "authorization-error" error);
                         auth_index := index |}) reqs)).

Definition authorizeAll (idToken : option string)
    (reqs : list BatchAuthRequest) (schedule : list nat)
  : M (bool * list BatchAuthResult) :=
  results <- authorizeBatch idToken reqs schedule ;;
  ret (forallb (fun r => auth_allow (auth r)) results, results).

Definition authorizeAny (idToken : option string)
    (reqs : list BatchAuthRequest) (schedule : list nat)
  : M (bool * list BatchAuthResult) :=
  results <- authorizeBatch idToken reqs schedule ;;
  ret (existsb (fun r => auth_allow (auth r)) results, results).

End Authorize.

(** ** Examples *)

Module Examples.

Definition allow_ok : OpaDecision :=
  {| allow := true; reason := Some "ok"; other_fields := [] |}.
Definition deny_no : OpaDecision :=
  {| allow := false; reason := Some "denied"; other_fields := [] |}.

Definition respond (d : option OpaDecision) : FetchOutcome :=
  Responded {| ok := true; status := 200; text := Ok EmptyString;
               json := Ok (JsonBody d) |}.

(** An endpoint that denies the resource whose [id] is [b], fails on [c]
    and allows the rest. *)
Definition E1 : Oracle :=
  {| clock := fun n => (1000 + 1000 * Z.of_nat n)%Z;
     opa := fun _ input =>
       match js_get "id" (resource input) with
       | JString "b" => respond (Some deny_no)
       | JString "c" => FetchRejected (JsError "fetch failed")
       | _ => respond (Some allow_ok)
       end;
     verifyIdToken := fun tok =>
       if String.eqb tok "good"
       then Ok {| token_uid := "u2"; token_fields := [("uid", JString "u2")] |}
       else Throw (JsError "bad signature");
     toISOString := fun _ => "2024-01-01T00:00:00.000Z";
     env_OPA_URL := None |}.

Definition w0 : World := {| cache := ∅; clock_reads := 0; requests := [] |}.

Definition svc : OpaService := opaService E1.

Definition post_env (ip : js_value) : OpaEnv :=
  {| now := "2024-01-01T00:00:00.000Z"; ip := ip |}.

(** Subject [u1] reads a post, the fields of the resource as given. *)
Definition read_post (res : js_record) (claims : js_record) (ip : js_value)
  : OpaInput :=
  {| uid := "u1"; tokenClaims := claims; action := "read_post";
     resource := res; env := post_env ip |}.

Definition type_id : js_record := [("type", JString "post"); ("id", JString "1")].
Definition id_type : js_record := [("id", JString "1"); ("type", JString "post")].

Definition check1 : OpaInput := read_post type_id [] JNull.

(** The same check from another address and with other claims. *)
Definition check2 : OpaInput :=
  read_post type_id [("role", JString "admin")] (JString "10.0.0.1").

(** The world after the first check. *)
Definition w1 : World := (await (query E1 svc check1) w0).2.

Definition vote_item (id : string) : OpaBatchItem :=
  {| item_action := "vote_post"; item_resource := [("id", JString id)] |}.

Definition votes : list OpaBatchItem := [vote_item "a"; vote_item "b"; vote_item "c"].

(** The world after subject [u2] has been allowed to vote on [a]. *)
Definition w_a : World :=
  (await (query E1 svc
            {| uid := "u2"; tokenClaims := []; action := "vote_post";
               resource := [("id", JString "a")]; env := post_env JNull |}) w0).2.

(** The decision on { u2, vote_post, a } has expired when the clock is read. *)
Definition w_stale : World :=
  {| cache := cache w_a; clock_reads := 40; requests := requests w_a |}.

Definition vote (id : string) : BatchAuthRequest :=
  {| req_action := "vote_post"; req_resource := [("id", JString id)];
     req_context := None |}.

End Examples.

(** ** Vocabulary of the statements *)

(** A name made of decimal digits only.  Every property name that is an
    array index is such a name.  An object enumerates its array indices in
    ascending numeric order and its other properties in the order of their
    creation. *)
Definition is_decimal_digit (c : ascii) : bool :=
  let n := N_of_ascii c in ((48 <=? n) && (n <=? 57))%N.

Fixpoint all_decimal_digits (k : string) : bool :=
  match k with
  | EmptyString => true
  | String c k' => is_decimal_digit c && all_decimal_digits k'
  end.

Definition digits_only (k : string) : bool :=
  match k with
  | EmptyString => false
  | String _ _ => all_decimal_digits k
  end.

(** A name that an object keeps where it was written: a field of this name
    becomes an own property that is enumerated in the order of writing.
    This leaves out the names made of digits only, since two array indices
    are enumerated in one order whichever was written first, and
    [__proto__], which in an object literal sets the prototype and creates
    no property. *)
Definition kept_in_place (k : string) : bool :=
  negb (digits_only k) && negb (String.eqb k "__proto__").

(** What a completed call comes to in [query]: the decision it returns, or
    the error it throws. *)
Definition answer_outcome (answer : FetchOutcome) : Outcome OpaDecision :=
  match answer with
  | FetchRejected e => Throw e
  | Responded res =>
      if ok res then
        match json res with
        | Ok (JsonBody result) => Ok (default no_decision result)
        | Ok JsonNull => Throw (JsError null_result_message)
        | Throw e => Throw e
        end
      else
        match text res with
        | Ok body =>
            Throw (JsError ("OPA call failed " +:+ pretty (status res) +:+ ": " +:+ body))
        | Throw e => Throw e
        end
  end.

(** The batch result of item [i] whose call came to [r]. *)
Definition item_result (i : nat) (r : Outcome OpaDecision) : OpaBatchResult :=
  match r with
  | Ok d => item_granted i d
  | Throw e => item_denied i e
  end.

Definition add_requests (sent : list (string * OpaInput)) (w : World) : World :=
  {| cache := cache w; clock_reads := clock_reads w; requests := requests w ++ sent |}.

Definition decision_url (this : OpaService) : string :=
  baseUrl this +:+ "/v1/data/authz/decision".

(** The continuation of [query_item]: [query] resumed inside the [try]. *)
Definition item_resume (E : Oracle) (this : OpaService) (i : nat) (key : string)
    (answer : FetchOutcome) : M OpaBatchResult :=
  try_catch (d <- query_resume E this key answer ;; ret (item_granted i d))
            (fun e => ret (item_denied i e)).

(** From [w] to [w']: no request was sent and the cache only lost entries. *)
Definition shrinks (w w' : World) : Prop :=
  requests w' = requests w /\
  forall k, cache w' !! k = None \/ cache w' !! k = cache w !! k.

(** From [w] to [w']: no request was sent and every entry of the cache is
    an entry it had, or holds a decision that [P] allows under its key. *)
Definition stores (P : string -> OpaDecision -> Prop) (w w' : World) : Prop :=
  requests w' = requests w /\
  forall k, cache w' !! k = cache w !! k \/
            exists entry, cache w' !! k = Some entry /\ P k (decision entry).

(** The decisions that the calls of a batch may leave in the cache: under
    the key of an input, the decision its call was answered with.  The
    [k]-th input of [sent] went out as request number [n0 + k]. *)
Definition answered (E : Oracle) (n0 : nat) (sent : list (nat * OpaInput))
    (key : string) (d : OpaDecision) : Prop :=
  exists k m, sent !! k = Some m /\ getCacheKey m.2 = key /\
              answer_outcome (opa E (n0 + k) m.2) = Ok d.

(** The results of the calls of a batch, in the order of the calls. *)
Definition fresh_results (E : Oracle) (n0 : nat) (sent : list (nat * OpaInput))
  : list OpaBatchResult :=
  imap (fun k m => item_result m.1 (answer_outcome (opa E (n0 + k) m.2))) sent.

(** A result that the first loop of [queryBatch] took from the cache of [w]:
    the decision stored under the key of the item at its index. *)
Definition from_cache (this : OpaService) (uid : string) (tokenClaims : js_record)
    (now : string) (ip : js_value) (items : list OpaBatchItem) (i : nat) (w : World)
    (r : OpaBatchResult) : Prop :=
  exists item entry,
    i <= index r /\ items !! (index r - i) = Some item /\
    cache w !! getCacheKey (item_input uid tokenClaims now ip item) = Some entry /\
    r = item_granted (index r) (decision entry).

(** An item that the first loop left for the endpoint: its input, with no
    entry under its key in the cache of [w'] that the loop left. *)
Definition uncached (this : OpaService) (uid : string) (tokenClaims : js_record)
    (now : string) (ip : js_value) (items : list OpaBatchItem) (i : nat) (w' : World)
    (m : nat * OpaInput) : Prop :=
  exists item,
    i <= m.1 /\ items !! (m.1 - i) = Some item /\
    m.2 = item_input uid tokenClaims now ip item /\
    (cacheEnabled this = false \/ cache w' !! getCacheKey m.2 = None).

(** [authorizeBatch]'s view of a batch result. *)
Definition to_auth (uid : string) (claims : js_record) (result : OpaBatchResult)
  : BatchAuthResult :=
  {| auth := auth_checked (batch_allow result) (batch_decision result) uid claims;
     auth_index := index result |}.

(** One deny per request, each with its position. *)
Definition all_denied (msg : string) (reqs : list BatchAuthRequest)
  : list BatchAuthResult :=
  imap (fun index _ => {| auth := auth_denied msg; auth_index := index |}) reqs.

Definition to_items (reqs : list BatchAuthRequest) : list OpaBatchItem :=
  map (fun req => {| item_action := req_action req;
                     item_resource := req_resource req |}) reqs.

Definition index_le (a b : OpaBatchResult) : Prop := index a <= index b.

(** A continuation that ends with the value [v] whatever the world it
    resumes in, and moves the world along [R]. *)
Definition yields {A} (R : relation World) (resume : M A) (v : A) : Prop :=
  forall w, (resume w).1 = Ok v /\ R w (resume w).2.

(** The promise in a slot has the value [v], or will have it. *)
Definition slot_ok {A} (R : relation World) (p : Promise A) (v : A) : Prop :=
  p = Settled (Ok v) \/ exists resume, p = Pending resume /\ yields R resume v.

Definition settled {A} (slots : list (Promise A)) (j : nat) : Prop :=
  exists v, slots !! j = Some (Settled (Ok v)).

(** From [w] to [w']: the cache and the log of requests are the same. *)
Definition same_store (w w' : World) : Prop :=
  cache w' = cache w /\ requests w' = requests w.

(** The inputs of a batch, one per item. *)
Definition batch_inputs (this : OpaService) (uid : string) (tokenClaims : js_record)
    (now : string) (ip : js_value) (items : list OpaBatchItem)
  : list (string * OpaInput) :=
  map (fun item => (decision_url this, item_input uid tokenClaims now ip item)) items.

(** * The request layer *)

(** ** Strings of the request layer *)

(** The white space that [String.prototype.trim] removes, among 8-bit code
    units: TAB, LF, VT, FF, CR, space and the no-break space. *)
Definition is_white_space (c : ascii) : bool :=
  let n := N_of_ascii c in
  ((9 <=? n) && (n <=? 13) || (n =? 32) || (n =? 160))%N.

Fixpoint trimStart (s : string) : string :=
  match s with
  | EmptyString => EmptyString
  | String c s' => if is_white_space c then trimStart s' else s
  end.

Fixpoint trimEnd (s : string) : string :=
  match s with
  | EmptyString => EmptyString
  | String c s' =>
      match trimEnd s' with
      | EmptyString => if is_white_space c then EmptyString else String c EmptyString
      | t => String c t
      end
  end.

(** [s.trim()] *)
Definition trim (s : string) : string := trimEnd (trimStart s).

(** [s.split(sep)] for a separator of one character: never empty. *)
Fixpoint split (sep : ascii) (s : string) : list string :=
  match s with
  | EmptyString => [EmptyString]
  | String c s' =>
      if Ascii.eqb c sep then EmptyString :: split sep s'
      else
        match split sep s' with
        | cur :: rest => String c cur :: rest
        | [] => [String c EmptyString]
        end
  end.

(** [a || b] on strings that may be missing: the empty string is falsy. *)
Definition truthy (s : option string) : option string :=
  match s with
  | Some (String c r) => Some (String c r)
  | _ => None
  end.

(** The rest of [s] after the prefix [p], when [s] starts with [p]. *)
Fixpoint after_prefix (p s : string) : option string :=
  match p, s with
  | EmptyString, _ => Some s
  | String a p', String b s' => if Ascii.eqb a b then after_prefix p' s' else None
  | String _ _, EmptyString => None
  end.

(** [hay.includes(needle)] *)
Fixpoint string_includes (needle hay : string) : bool :=
  match after_prefix needle hay with Some _ => true | None => false end
  || match hay with
     | EmptyString => false
     | String _ hay' => string_includes needle hay'
     end.

(** [list.includes(x)] *)
Definition includes (l : list string) (x : string) : bool :=
  existsb (String.eqb x) l.

(** A [Headers] object, by its [get] method on lower-case names. *)
Definition Headers : Type := string -> option string.

(** [getClientIp]:
    [headers.get('x-forwarded-for')?.split(',')[0]?.trim()
       || headers.get('x-real-ip') || null] *)
Definition getClientIp (headers : Headers) : option string :=
  match truthy (headers "x-forwarded-for"
                ≫= fun value => head (split "," value)
                ≫= fun first => Some (trim first)) with
  | Some ip => Some ip
  | None => truthy (headers "x-real-ip")
  end.

Fixpoint string_forallb (f : ascii -> bool) (s : string) : bool :=
  match s with
  | EmptyString => true
  | String c s' => f c && string_forallb f s'
  end.

(** A line terminator, which the dot of a regular expression does not
    match: LF or CR. *)
Definition is_line_terminator (c : ascii) : bool :=
  let n := N_of_ascii c in ((n =? 10) || (n =? 13))%N.

(** [s.match(/^Bearer (.+)$/)], the first group: the text is [Bearer], a
    space and then, up to its end, one or more characters none of which is
    a line terminator. *)
Definition match_bearer (s : string) : option string :=
  match after_prefix "Bearer " s with
  | Some (String c rest) =>
      if string_forallb (fun x => negb (is_line_terminator x)) (String c rest)
      then Some (String c rest) else None
  | _ => None
  end.

(** ** [errors.ts] and [response.ts] *)

Inductive ApiErrorClass : Type :=
| ApiErrorBase
| ValidationErrorClass
| AuthenticationErrorClass
| AuthorizationErrorClass
| OtherApiErrorClass (name : string).

(** The [details] of an error, of type [unknown]: nothing, a JSON value, or
    the decision of an [AuthResult]. *)
Inductive Details : Type :=
| NoDetails
| DetailsValue (v : js_value)
| DetailsDecision (d : string + OpaDecision).

Record ApiError : Type := {
  err_class : ApiErrorClass;
  err_message : string;
  statusCode : Z;
  err_code : string;
  err_details : Details;
}.

Definition ValidationError (message : string) (details : Details) : ApiError :=
  {| err_class := ValidationErrorClass; err_message := message; statusCode := 400;
     err_code := "VALIDATION_ERROR"; err_details := details |}.

Definition AuthenticationError (message : string) : ApiError :=
  {| err_class := AuthenticationErrorClass; err_message := message; statusCode := 401;
     err_code := "AUTHENTICATION_ERROR"; err_details := NoDetails |}.

Definition AuthorizationError (message : string) (details : Details) : ApiError :=
  {| err_class := AuthorizationErrorClass; err_message := message; statusCode := 403;
     err_code := "AUTHORIZATION_ERROR"; err_details := details |}.

(** What the request layer may catch: an [ApiError], a [SyntaxError], or
    another thrown value. *)
Inductive thrown : Type :=
| ThrownApi (e : ApiError)
| ThrownSyntax (message : string)
| ThrownOther (e : js_error).

(** The body of a [NextResponse]: an error payload
    [{ success: false, error, code, details }], or whatever a handler made. *)
Inductive ResponseBody : Type :=
| ErrorBody (error : string) (code : string) (details : Details)
| HandlerBody (data : js_value).

Record NextResponse : Type := {
  resp_status : Z;
  resp_body : ResponseBody;
}.

(** [ApiResponse.error(message, status = 500, code = 'ERROR', details)] *)
Definition ApiResponse_error (message : string) (status : option Z)
    (code : option string) (details : Details) : NextResponse :=
  {| resp_status := default 500%Z status;
     resp_body := ErrorBody message (default "ERROR" code) details |}.

Definition ApiResponse_fromError (error : ApiError) : NextResponse :=
  ApiResponse_error (err_message error) (Some (statusCode error))
    (Some (err_code error)) (err_details error).

(** ** [base.ts] *)

Inductive Result (A : Type) : Type :=
| Returned (a : A)
| Raised (t : thrown).
Arguments Returned {A} a.
Arguments Raised {A} t.

(** The monad of the request layer: the same world, richer exceptions. *)
Definition MH (A : Type) : Type := World -> Result A * World.

Definition h_ret {A} (a : A) : MH A := fun w => (Returned a, w).

Definition h_raise {A} (t : thrown) : MH A := fun w => (Raised t, w).

Definition h_bind {A B} (m : MH A) (f : A -> MH B) : MH B :=
  fun w =>
    match m w with
    | (Returned a, w') => f a w'
    | (Raised t, w') => (Raised t, w')
    end.

Definition h_try {A} (m : MH A) (handler : thrown -> MH A) : MH A :=
  fun w =>
    match m w with
    | (Returned a, w') => (Returned a, w')
    | (Raised t, w') => handler t w'
    end.

(** A computation of the authorization layer run from the request layer. *)
Definition from_M {A} (m : M A) : MH A :=
  fun w =>
    match m w with
    | (Ok a, w') => (Returned a, w')
    | (Throw e, w') => (Raised (ThrownOther e), w')
    end.

Notation "x <~ m ;; k" := (h_bind m (fun x => k))
  (at level 100, m at next level, right associativity).

Abbreviation str_record := (list (string * string)).

Record NextRequest : Type := {
  req_header : Headers;
  req_method : string;
  req_pathname : string;
  req_query : list (string * string);
  req_json : Result js_value;
}.

(** A Zod schema, by its [safeParse]: the flattened error, or the data. *)
Definition ZodSchema : Type := js_value -> js_value + js_value.

Record ResourceArgs : Type := {
  arg_params : str_record;
  arg_query : list (string * string);
  arg_body : option js_value;
}.

Record HandlerContext : Type := {
  ctx_uid : string;
  ctx_claims : js_record;
  ctx_idToken : string;
  ctx_body : option js_value;
  ctx_params : str_record;
  ctx_query : list (string * string);
  ctx_request : NextRequest;
  ctx_ip : option string;
}.

Record HandlerOptions : Type := {
  opt_action : string;
  opt_resource : js_record + (ResourceArgs -> MH js_record);
  opt_context : option js_record;
  opt_bodySchema : option ZodSchema;
  opt_requireAuth : option bool;
  opt_handler : HandlerContext -> MH NextResponse;
}.

(** [extractToken]: [req.headers.get('authorization') || ''] matched against
    [/^Bearer (.+)$/]. *)
Definition extractToken (req : NextRequest) : option string :=
  let authHeader := default EmptyString (truthy (req_header req "authorization")) in
  match_bearer authHeader.

Definition knownActions : list string :=
  [ "ban"; "suspend"; "report"; "like"; "bookmark"; "join"; "vote"; "follow";
    "moderators"; "members" ].

Definition collections : list string := ["users"; "posts"; "comments"; "communities"].

(** The body of the loop of [extractParams] at index [i]. *)
Definition extractParams_step (pathParts : list string) (params : str_record) (i : nat)
  : str_record :=
  match pathParts !! i with
  | None => params
  | Some part =>
      let previous := default EmptyString (pathParts !! (i - 1)) in
      if (0 <? i)%nat && negb (includes ["api"; "v1"] previous) then
        if negb (includes knownActions part) && negb (String.eqb previous "api") then
          if includes collections previous then [("id", part)] else params
        else params
      else params
  end.

(** [url.pathname.split('/').filter(Boolean)] *)
Definition pathParts_of (pathname : string) : list string :=
  filter (fun part => part <> EmptyString) (split "/" pathname).

(** [extractParams], on the path of the request's URL. *)
Definition extractParams (pathname : string) : str_record :=
  let pathParts := pathParts_of pathname in
  fold_left (extractParams_step pathParts) (seq 0 (length pathParts)) [].

(** [parseBody] *)
Definition parseBody (req : NextRequest) (schema : option ZodSchema)
  : MH (option js_value) :=
  match req_header req "content-type" with
  | None => h_ret None
  | Some contentType =>
      if negb (string_includes "application/json" contentType) then h_ret None
      else
        h_try
          (body <~ (fun w => (req_json req, w)) ;;
           match schema with
           | Some safeParse =>
               match safeParse body with
               | inl flattened =>
                   h_raise (ThrownApi (ValidationError "Validation failed"
                                         (DetailsValue flattened)))
               | inr data => h_ret (Some data)
               end
           | None => h_ret (Some body)
           end)
          (fun error =>
             match error with
             | ThrownApi e => h_raise error
             | ThrownSyntax _ =>
                 h_raise (ThrownApi (ValidationError "Invalid JSON in request body"
                                       NoDetails))
             | ThrownOther _ => h_raise error
             end)
  end.

(** [handleError] *)
Definition handleError (error : thrown) : NextResponse :=
  match error with
  | ThrownApi e => ApiResponse_fromError e
  | ThrownSyntax message => ApiResponse_error message (Some 500%Z) None NoDetails
  | ThrownOther e =>
      ApiResponse_error (error_message "Internal server error" e) (Some 500%Z)
        None NoDetails
  end.

(** [{ ...context, ip }] *)
Definition auth_context (context : option js_record) (ip : option string) : js_record :=
  js_set "ip" (match ip with Some s => JString s | None => JNull end)
    (js_spread [] (default [] context)).

(** [routeParams || extractParams(req)] *)
Definition request_params (req : NextRequest) (routeParams : option str_record)
  : str_record :=
  match routeParams with
  | Some given => given
  | None => extractParams (req_pathname req)
  end.

(** The body, parsed for the methods that carry one. *)
Definition body_stage (req : NextRequest) (options : HandlerOptions)
  : MH (option js_value) :=
  if includes ["POST"; "PATCH"; "PUT"] (req_method req)
  then parseBody req (opt_bodySchema options)
  else h_ret None.

(** The resource object: given, or made from the request. *)
Definition resource_stage (req : NextRequest) (options : HandlerOptions)
    (routeParams : option str_record) (body : option js_value) : MH js_record :=
  match opt_resource options with
  | inl obj => h_ret obj
  | inr make =>
      make {| arg_params := request_params req routeParams;
              arg_query := req_query req; arg_body := body |}
  end.

(** The result for a request that needs no authorization. *)
Definition no_auth_required : AuthResult :=
  {| auth_allow := true; auth_decision := inl "no-auth-required";
     auth_uid := None; auth_claims := [] |}.

Definition access_denied (result : AuthResult) : ApiError :=
  AuthorizationError "Access denied" (DetailsDecision (auth_decision result)).

Definition make_context (req : NextRequest) (routeParams : option str_record)
    (body : option js_value) (authResult : AuthResult) : HandlerContext :=
  {| ctx_uid := default EmptyString (truthy (auth_uid authResult));
     ctx_claims := auth_claims authResult;
     ctx_idToken := default EmptyString (truthy (extractToken req));
     ctx_body := body;
     ctx_params := request_params req routeParams;
     ctx_query := req_query req;
     ctx_request := req;
     ctx_ip := getClientIp (req_header req) |}.

Section RequestLayer.

Context (E : Oracle).

(** The authorization step of [handleRequest]. *)
Definition authorize_stage (req : NextRequest) (options : HandlerOptions)
    (resourceObj : js_record) : MH AuthResult :=
  let requireAuth := default true (opt_requireAuth options) in
  let idToken := extractToken req in
  if requireAuth && negb (no_token idToken) then
    result <~ from_M (authorize E idToken (opt_action options) resourceObj
                        (Some (auth_context (opt_context options)
                                 (getClientIp (req_header req))))) ;;
    if negb (auth_allow result) then h_raise (ThrownApi (access_denied result))
    else h_ret result
  else h_ret no_auth_required.

(** The [try] block of [handleRequest] up to the call of the handler: the
    context that the handler will get. *)
Definition build_context (req : NextRequest) (options : HandlerOptions)
    (routeParams : option str_record) : MH HandlerContext :=
  let requireAuth := default true (opt_requireAuth options) in
  if requireAuth && no_token (extractToken req) then
    h_raise (ThrownApi (AuthenticationError "Missing Authorization Bearer token"))
  else
    body <~ body_stage req options ;;
    resourceObj <~ resource_stage req options routeParams body ;;
    authResult <~ authorize_stage req options resourceObj ;;
    h_ret (make_context req routeParams body authResult).

Definition handleRequest (req : NextRequest) (options : HandlerOptions)
    (routeParams : option str_record) : MH NextResponse :=
  h_try (ctx <~ build_context req options routeParams ;; opt_handler options ctx)
        (fun error => h_ret (handleError error)).

Definition withAuth (req : NextRequest) (options : HandlerOptions)
    (routeParams : option str_record) : MH NextResponse :=
  handleRequest req options routeParams.

(** [handleRequest(req, { ...options, requireAuth: false }, routeParams)] *)
Definition withoutAuth (req : NextRequest) (options : HandlerOptions)
    (routeParams : option str_record) : MH NextResponse :=
  handleRequest req
    {| opt_action := opt_action options; opt_resource := opt_resource options;
       opt_context := opt_context options; opt_bodySchema := opt_bodySchema options;
       opt_requireAuth := Some false; opt_handler := opt_handler options |}
    routeParams.

End RequestLayer.


(** ** Vocabulary of the request layer *)

(** No character of [s] is [c]. *)
Definition lacks (c : ascii) (s : string) : bool :=
  string_forallb (fun x => negb (Ascii.eqb x c)) s.

Definition no_line_terminator (s : string) : bool :=
  string_forallb (fun x => negb (is_line_terminator x)) s.

(** An unreserved character of a URL: an ASCII letter, a digit, or one of
    the four marks of [-._~]. *)
Definition is_unreserved (c : ascii) : bool :=
  let n := N_of_ascii c in
  ((65 <=? n) && (n <=? 90) || (97 <=? n) && (n <=? 122)
   || (48 <=? n) && (n <=? 57)
   || (n =? 45) || (n =? 46) || (n =? 95) || (n =? 126))%N.

(** A segment that the [pathname] of a parsed URL holds as it was written:
    not empty, made of unreserved characters, which the URL parser neither
    escapes nor strips, and other than the dot segments [.] and [..], which
    the parser resolves. *)
Definition url_segment (x : string) : bool :=
  match x with
  | EmptyString => false
  | String _ _ =>
      string_forallb is_unreserved x
      && negb (String.eqb x ".") && negb (String.eqb x "..")
  end.

(** The segment that [extractParams] keeps: the last one that directly
    follows the name of a collection and is not the name of an action. *)
Fixpoint last_id (previous : string) (parts : list string) (found : option string)
  : option string :=
  match parts with
  | [] => found
  | part :: rest =>
      last_id part rest
        (if includes collections previous && negb (includes knownActions part)
         then Some part else found)
  end.

Definition id_params (found : option string) : str_record :=
  match found with
  | Some x => [("id", x)]
  | None => []
  end.

(** [s] starts with white space. *)
Definition starts_white (s : string) : bool :=
  match s with
  | EmptyString => false
  | String c _ => is_white_space c
  end.

(** ** Examples of requests *)

Module RequestExamples.

Import Examples.

(** A service that keeps nothing: its TTL is zero. *)
Definition svc_zero : OpaService :=
  new_OpaService "http://opa:8181"
    {| opt_cacheEnabled := None; opt_cacheTtlMs := Some 0%Z |}.

(** A service whose cache is switched off. *)
Definition svc_off : OpaService :=
  new_OpaService "http://opa:8181"
    {| opt_cacheEnabled := Some false; opt_cacheTtlMs := None |}.

Definition vote_input (id : string) : OpaInput :=
  {| uid := "u2"; tokenClaims := []; action := "vote_post";
     resource := [("id", JString id)]; env := post_env JNull |}.

(** The identity service of [E1], with tokens that carry an address. *)
Definition E2 : Oracle :=
  {| clock := clock E1;
     opa := opa E1;
     verifyIdToken := fun tok =>
       if String.eqb tok "good"
       then Ok {| token_uid := "u2";
                  token_fields := [ ("uid", JString "u2");
                                    ("email", JString "u2@example.org");
                                    ("email_verified", JBool true) ] |}
       else Throw (JsError "bad signature");
     toISOString := toISOString E1;
     env_OPA_URL := None |}.

Definition headers_of (fields : list (string * string)) : Headers :=
  fun name =>
    match find (fun field => String.eqb field.1 name) fields with
    | Some field => Some field.2
    | None => None
    end.

(** A vote on the post [id], sent through a proxy. *)
Definition vote_request (authorization : option string) (id : string)
    (body : js_value) : NextRequest :=
  {| req_header :=
       headers_of
         (match authorization with
          | Some value => [("authorization", value)]
          | None => []
          end
          ++ [ ("content-type", "application/json; charset=utf-8");
               ("x-forwarded-for", " 10.0.0.1 , 10.0.0.2") ])%list;
     req_method := "POST";
     req_pathname := "/api/posts/" +:+ id +:+ "/vote";
     req_query := [];
     req_json := Returned body |}.

Definition up : js_value := JObject [("value", JNumber 1)].

Definition vote_schema : ZodSchema :=
  fun body =>
    match body with
    | JObject [("value", JNumber n)] => inr body
    | _ => inl (JObject [("formErrors", JArray [JString "Invalid input"])])
    end.

Definition voted : NextResponse :=
  {| resp_status := 200; resp_body := HandlerBody (JObject [("success", JBool true)]) |}.

(** The resource of a vote is the post named by the path. *)
Definition post_resource (args : ResourceArgs) : js_record :=
  match arg_params args with
  | [(_, id)] => [("id", JString id)]
  | _ => []
  end.

Definition vote_options : HandlerOptions :=
  {| opt_action := "vote_post";
     opt_resource := inr (fun args => h_ret (post_resource args));
     opt_context := None;
     opt_bodySchema := Some vote_schema;
     opt_requireAuth := None;
     opt_handler := fun _ => h_ret voted |}.

Definition vote_from (ip : string) (id : string) : BatchAuthRequest :=
  {| req_action := "vote_post"; req_resource := [("id", JString id)];
     req_context := Some [("ip", JString ip)] |}.

End RequestExamples.


(** * Properties *)

Open Scope list_scope.

(** ** The cache key *)

Module JSONFacts.
Import JSON.

Lemma append_nil (b : string) : EmptyString +:+ b = b.
Proof. reflexivity. Qed.

Lemma append_cons c (a b : string) : String c a +:+ b = String c (a +:+ b).
Proof. reflexivity. Qed.

Lemma append_assoc (a b c : string) : (a +:+ b) +:+ c = a +:+ (b +:+ c).
Proof.
  induction a as [|x a IH]; [done|]. rewrite !append_cons. by rewrite IH.
Qed.

Lemma append_cancel (a b c : string) : a +:+ b = a +:+ c -> b = c.
Proof.
  induction a as [|x a IH]; [done|]. rewrite !append_cons. intros [= H]. auto.
Qed.

Lemma read_quote_code_unit c rest :
  read_code_unit (quote_code_unit c +:+ rest) = Some (c, rest).
Proof.
  destruct c as [[] [] [] [] [] [] [] []]; reflexivity.
Qed.

Lemma quote_code_units_prefix_free a b x y :
  quote_code_units a +:+ String dquote x = quote_code_units b +:+ String dquote y ->
  a = b /\ x = y.
Proof.
  revert b. induction a as [|c a IH]; intros [|d b]; cbn [quote_code_units];
    rewrite ?append_nil.
  - by intros [= ->].
  - rewrite append_assoc. intros H. apply (f_equal read_code_unit) in H.
    by rewrite read_quote_code_unit in H.
  - rewrite append_assoc. intros H. apply (f_equal read_code_unit) in H.
    by rewrite read_quote_code_unit in H.
  - rewrite !append_assoc. intros H. apply (f_equal read_code_unit) in H.
    rewrite !read_quote_code_unit in H.
    injection H as -> H. by destruct (IH _ H) as [-> ->].
Qed.

(** A quoted string ends where its closing quote is: of two strings that
    start with a quoted string, the quoted parts agree. *)
Lemma QuoteJSONString_prefix_free a b x y :
  QuoteJSONString a +:+ x = QuoteJSONString b +:+ y -> a = b /\ x = y.
Proof.
  unfold QuoteJSONString. rewrite !append_cons, !append_assoc, !append_cons.
  rewrite !append_nil. intros [= H]. by apply quote_code_units_prefix_free.
Qed.

Lemma SerializeJSONProperty_defined v :
  v <> JUndefined -> exists s, SerializeJSONProperty v = Some s.
Proof. destruct v as [| |[]| | | |]; intros; try done; by eexists. Qed.

Lemma join_comma_cons m rest : join_comma (m :: rest) = m +:+ more_members rest.
Proof.
  destruct rest; simpl; [|done].
  induction m as [|c m IH]; [done|]. rewrite append_cons. by rewrite <- IH.
Qed.

Lemma members_cons k v s r :
  SerializeJSONProperty v = Some s ->
  members ((k, v) :: r) = (QuoteJSONString k +:+ ":" +:+ s) :: members r.
Proof. simpl. by intros ->. Qed.

Lemma SerializeJSONProperty_object props :
  SerializeJSONProperty (JObject props) = Some (stringify_object props).
Proof.
  reflexivity.
Qed.

End JSONFacts.

(** The key reads three fields of the input and nothing else. *)
Lemma getCacheKey_fields i1 i2 :
  uid i1 = uid i2 -> action i1 = action i2 -> resource i1 = resource i2 ->
  getCacheKey i1 = getCacheKey i2.
Proof. unfold getCacheKey. by intros -> -> ->. Qed.

(** Two resources whose first properties have different names and defined
    values never share a key. *)
Lemma getCacheKey_first_field u a k1 v1 r1 k2 v2 r2 c1 e1 c2 e2 :
  k1 <> k2 -> v1 <> JUndefined -> v2 <> JUndefined ->
  getCacheKey {| uid := u; tokenClaims := c1; action := a;
                 resource := (k1, v1) :: r1; env := e1 |} <>
  getCacheKey {| uid := u; tokenClaims := c2; action := a;
                 resource := (k2, v2) :: r2; env := e2 |}.
Proof.
  intros Hk Hv1 Hv2 Heq. apply Hk.
  destruct (JSONFacts.SerializeJSONProperty_defined _ Hv1) as [s1 Hs1].
  destruct (JSONFacts.SerializeJSONProperty_defined _ Hv2) as [s2 Hs2].
  unfold getCacheKey, JSON.stringify_object in Heq.
  cbn [uid action resource] in Heq.
  rewrite !(JSONFacts.members_cons _ (JString _) _ _ eq_refl) in Heq.
  rewrite !(JSONFacts.members_cons _ (JObject _) _ _
              (JSONFacts.SerializeJSONProperty_object _)) in Heq.
  unfold JSON.stringify_object in Heq.
  rewrite (JSONFacts.members_cons _ _ _ _ Hs1) in Heq.
  rewrite (JSONFacts.members_cons _ _ _ _ Hs2) in Heq.
  cbn [JSON.members] in Heq.
  repeat first [ rewrite JSONFacts.join_comma_cons in Heq
               | progress cbn [JSON.more_members] in Heq ].
  rewrite !JSONFacts.append_assoc in Heq.
  repeat apply JSONFacts.append_cancel in Heq.
  apply JSONFacts.QuoteJSONString_prefix_free in Heq. tauto.
Qed.

(** ** The cache *)

Section CacheFacts.

Context (E : Oracle) (this : OpaService).

Lemma getCachedDecision_eq key w :
  getCachedDecision E this key w =
    if cacheEnabled this then
      match cache w !! key with
      | Some entry =>
          if (clock E (clock_reads w) <? expiry entry)%Z
          then (Ok (Some (decision entry)), tick w)
          else (Ok None, with_cache (delete key (cache w)) (tick w))
      | None => (Ok None, w)
      end
    else (Ok None, w).
Proof.
  unfold getCachedDecision. destruct (cacheEnabled this); simpl; [|done].
  unfold bind, cache_get. destruct (cache w !! key) as [entry|]; [|done].
  simpl. by destruct (_ <? _)%Z.
Qed.

Lemma cacheDecision_eq key d w :
  cacheDecision E this key d w =
    if cacheEnabled this then
      (Ok tt,
       with_cache
         (<[key := {| decision := d;
                      expiry := (clock E (clock_reads w) + cacheTtlMs this)%Z |}]>
            (cache w))
         (tick w))
    else (Ok tt, w).
Proof. unfold cacheDecision. by destruct (cacheEnabled this). Qed.

(** C6.  A lookup returns a stored decision only when the key has an entry
    whose expiry is strictly after the clock reading; in every other case
    it returns nothing, and an entry found expired is deleted.  The lookup
    never throws and touches no other key. *)
Theorem getCachedDecision_fresh_only key w :
  exists r w',
    getCachedDecision E this key w = (Ok r, w') /\
    requests w' = requests w /\
    (forall d, r = Some d ->
       exists entry, cache w !! key = Some entry /\ d = decision entry /\
                     (clock E (clock_reads w) < expiry entry)%Z /\
                     cache w' = cache w) /\
    (r = None <->
       cacheEnabled this = false \/ cache w !! key = None \/
       exists entry, cache w !! key = Some entry /\
                     (expiry entry <= clock E (clock_reads w))%Z) /\
    (forall entry, cacheEnabled this = true -> cache w !! key = Some entry ->
       (expiry entry <= clock E (clock_reads w))%Z ->
       r = None /\ cache w' !! key = None /\ cache w' = delete key (cache w)) /\
    (forall k, k <> key -> cache w' !! k = cache w !! k).
Proof.
  rewrite getCachedDecision_eq.
  destruct (cacheEnabled this) eqn:Hen.
  - destruct (cache w !! key) as [entry|] eqn:Hk.
    + destruct (Z.ltb_spec (clock E (clock_reads w)) (expiry entry)) as [Hlt|Hge].
      * eexists _, _. split; [reflexivity|]. simpl. split_and!; try done.
        -- intros d [= <-]. by exists entry.
        -- split; [done|]. intros [?|[?|(e' & [= <-] & ?)]]; try done. lia.
        -- intros e' _ [= <-] ?. lia.
      * eexists _, _. split; [reflexivity|]. simpl. split_and!; try done.
        -- split; [|done]. intros _. right. right. by exists entry.
        -- intros e' _ _ _. split_and!; try done. apply lookup_delete_eq.
        -- intros k Hne. by apply lookup_delete_ne.
    + eexists _, _. split; [reflexivity|]. split_and!; try done.
      split; [|done]. intros _. by right; left.
  - eexists _, _. split; [reflexivity|]. split_and!; try done.
    split; [|done]. intros _. by left.
Qed.

End CacheFacts.

(** ** Sorting by index *)

Section SortFacts.

Lemma insert_by_index_perm r l : insert_by_index r l ≡ₚ r :: l.
Proof.
  induction l as [|r' l IH]; simpl; [done|].
  destruct (index r <=? index r')%nat; [done|].
  rewrite IH. apply Permutation_swap.
Qed.

Lemma sort_by_index_perm l : sort_by_index l ≡ₚ l.
Proof.
  induction l as [|r l IH]; simpl; [done|].
  by rewrite insert_by_index_perm, IH.
Qed.

Lemma insert_by_index_sorted r l :
  Sorted index_le l -> Sorted index_le (insert_by_index r l).
Proof.
  induction 1 as [|r' l Hs IH Hhd]; simpl.
  - by repeat constructor.
  - destruct (Nat.leb_spec (index r) (index r')) as [Hle|Hgt].
    + repeat constructor; done.
    + constructor; [done|].
      destruct Hhd as [|r'' l Hr'']; simpl.
      * constructor. unfold index_le. lia.
      * destruct (index r <=? index r'')%nat; constructor;
          unfold index_le in *; lia.
Qed.

Lemma sort_by_index_sorted l : Sorted index_le (sort_by_index l).
Proof.
  induction l as [|r l IH]; simpl; [constructor|].
  by apply insert_by_index_sorted.
Qed.

Lemma Sorted_le_seq i n : Sorted le (seq i n).
Proof.
  revert i. induction n as [|n IH]; intros i; simpl; [constructor|].
  constructor; [apply IH|]. destruct n; simpl; constructor. lia.
Qed.

(** A list whose indices are [i .. i+n-1] in some order is sorted into
    the list that has index [i + k] at position [k]. *)
Lemma sort_by_index_seq l i n :
  map index l ≡ₚ seq i n -> map index (sort_by_index l) = seq i n.
Proof.
  intros Hperm. apply (Sorted_unique le).
  - generalize (sort_by_index_sorted l).
    induction 1 as [|r l' Hs IH Hhd]; simpl; [constructor|].
    constructor; [done|]. destruct Hhd; simpl; by constructor.
  - apply Sorted_le_seq.
  - by rewrite sort_by_index_perm.
Qed.

End SortFacts.

(** ** [Promise.all] *)

Section PromiseFacts.

Context {A : Type} (R : relation World) `{!PreOrder R}.

Lemma complete_ok j (slots : list (Promise A)) (values : list A) w :
  Forall2 (slot_ok R) slots values ->
  exists (slots' : list (Promise A)) w',
    complete j (slots, None) w = ((slots', None), w') /\
    Forall2 (slot_ok R) slots' values /\ R w w' /\
    (forall i, settled slots i -> settled slots' i) /\
    (j < length slots -> settled slots' j).
Proof.
  intros Hok. unfold complete. simpl.
  destruct (slots !! j) as [p|] eqn:Hj.
  - destruct (Forall2_lookup_l _ _ _ _ _ Hok Hj) as (v & Hv & Hp).
    destruct Hp as [->|(resume & -> & Hy)].
    + exists slots, w. split_and!; try done. intros _. by exists v.
    + destruct (Hy w) as [Hval HR]. destruct (resume w) as [r w'] eqn:Hrun.
      simpl in *. subst r.
      exists (<[j := Settled (Ok v)]> slots), w'. split_and!; try done.
      * rewrite <- (list_insert_id values j v) by done.
        apply Forall2_insert; [done|]. by left.
      * intros i [vi Hi]. destruct (decide (i = j)) as [->|Hne].
        -- congruence.
        -- exists vi. by rewrite list_lookup_insert_ne.
      * intros Hlt. exists v. by rewrite list_lookup_insert_eq.
  - exists slots, w. split_and!; try done.
    intros Hlt. apply lookup_ge_None in Hj. lia.
Qed.

Lemma complete_all_ok order (slots : list (Promise A)) (values : list A) w :
  Forall2 (slot_ok R) slots values ->
  exists (slots' : list (Promise A)) w',
    complete_all order (slots, None) w = ((slots', None), w') /\
    Forall2 (slot_ok R) slots' values /\ R w w' /\
    (forall i, settled slots i -> settled slots' i) /\
    (forall j, j ∈ order -> j < length slots -> settled slots' j).
Proof.
  revert slots w. induction order as [|j order IH]; intros slots w Hok.
  - exists slots, w. split_and!; try done. intros j Hj. by apply elem_of_nil in Hj.
  - destruct (complete_ok j slots values w Hok)
      as (slots1 & w1 & Hrun & Hok1 & HR1 & Hkeep1 & Hj1).
    destruct (IH slots1 w1 Hok1) as (slots2 & w2 & Hrun2 & Hok2 & HR2 & Hkeep2 & Hj2).
    exists slots2, w2. simpl. rewrite Hrun. split_and!; try done.
    + by etrans.
    + intros i Hi. auto.
    + intros i Hi Hlt. apply elem_of_cons in Hi as [->|Hi].
      * auto.
      * apply Hj2; [done|].
        by rewrite (Forall2_length _ _ _ Hok1), <- (Forall2_length _ _ _ Hok).
Qed.

Lemma first_rejection_ok (slots : list (Promise A)) (values : list A) :
  Forall2 (slot_ok R) slots values -> first_rejection slots = None.
Proof.
  induction 1 as [|p v slots values Hp _ IH]; simpl; [done|].
  by destruct Hp as [->|(resume & -> & _)].
Qed.

Lemma fulfilled_settled (slots : list (Promise A)) (values : list A) :
  Forall2 (slot_ok R) slots values ->
  (forall j, j < length slots -> settled slots j) ->
  fulfilled slots = values.
Proof.
  unfold fulfilled.
  induction 1 as [|p v slots values Hp _ IH]; intros Hall; simpl; [done|].
  destruct (Hall 0) as [v0 Hv0]; [simpl; lia|]. simpl in Hv0.
  injection Hv0 as ->. simpl. destruct Hp as [[= ->]|(resume & ? & _)]; [|done].
  f_equal. apply IH. intros j Hj. apply (Hall (S j)). simpl. lia.
Qed.

(** Whatever the order in which the calls complete, [Promise.all] over
    pending calls whose values do not depend on the world resolves to the
    values, in the order of the promises. *)
Lemma Promise_all_ok (promises : list (Promise A)) (values : list A) schedule w :
  Forall2 (slot_ok R) promises values ->
  exists w', Promise_all promises schedule w = (Ok values, w') /\ R w w'.
Proof.
  intros Hok. unfold Promise_all.
  rewrite (first_rejection_ok _ _ Hok).
  destruct (complete_all_ok (schedule ++ seq 0 (length promises)) promises values w Hok)
    as (slots' & w' & -> & Hok' & HR & _ & Hall).
  exists w'. simpl. split; [|done]. do 2 f_equal.
  apply fulfilled_settled; [done|].
  intros j Hj. rewrite (Forall2_length _ _ _ Hok'), <- (Forall2_length _ _ _ Hok) in Hj.
  apply Hall; [|done]. apply elem_of_app. right. apply elem_of_seq. lia.
Qed.

End PromiseFacts.

(** ** [query] and [queryBatch] *)

Section QueryFacts.

Context (E : Oracle) (this : OpaService).

#[global] Instance stores_preorder P : PreOrder (stores P).
Proof.
  split.
  - intros w. split; [done|]. by left.
  - intros w1 w2 w3 [Hr1 H1] [Hr2 H2]. split; [congruence|].
    intros k. destruct (H2 k) as [->|?]; [apply H1|by right].
Qed.

Lemma query_resume_eq key answer w :
  query_resume E this key answer w =
    match answer_outcome answer with
    | Ok d => (Ok d, (cacheDecision E this key d w).2)
    | Throw e => (Throw e, w)
    end.
Proof.
  destruct answer as [e|[ok_ status_ text_ json_]]; simpl; [done|].
  unfold bind, lift. destruct ok_; simpl.
  - destruct json_ as [[|result]|e]; simpl; try done.
    unfold ret. by destruct (cacheDecision E this key _ w) as [[[]|e] w'] eqn:Hc;
      rewrite cacheDecision_eq in Hc; destruct (cacheEnabled this); simplify_eq.
  - by destruct text_.
Qed.

(** A call that comes to an error leaves the world as it is. *)
Lemma query_resume_throw key answer e w :
  answer_outcome answer = Throw e ->
  query_resume E this key answer w = (Throw e, w).
Proof. intros H. by rewrite query_resume_eq, H. Qed.

Lemma cacheDecision_stores (P : string -> OpaDecision -> Prop) key d w :
  P key d -> stores P w (cacheDecision E this key d w).2.
Proof.
  intros HP. rewrite cacheDecision_eq. destruct (cacheEnabled this); simpl.
  - split; [done|]. intros k. simpl. destruct (decide (k = key)) as [->|Hne].
    + right. eexists. by rewrite lookup_insert_eq.
    + left. by rewrite lookup_insert_ne.
  - reflexivity.
Qed.

Lemma item_resume_yields (P : string -> OpaDecision -> Prop) i key answer :
  (forall d, answer_outcome answer = Ok d -> P key d) ->
  yields (stores P) (item_resume E this i key answer)
    (item_result i (answer_outcome answer)).
Proof.
  intros HP w. unfold item_resume, try_catch, bind.
  rewrite query_resume_eq.
  destruct (answer_outcome answer) as [d|e]; simpl.
  - split; [done|]. by apply cacheDecision_stores, HP.
  - split; [done|]. reflexivity.
Qed.

(** A lookup that misses leaves no entry under the key. *)
Lemma getCachedDecision_miss key w w' :
  getCachedDecision E this key w = (Ok None, w') ->
  shrinks w w' /\ (cacheEnabled this = false \/ cache w' !! key = None).
Proof.
  rewrite getCachedDecision_eq. destruct (cacheEnabled this).
  - destruct (cache w !! key) as [entry|] eqn:Hk.
    + destruct (_ <? _)%Z; [done|]. intros [= <-]. simpl. split.
      * split; [done|]. intros k. simpl. destruct (decide (k = key)) as [->|Hne].
        -- left. apply lookup_delete_eq.
        -- right. by apply lookup_delete_ne.
      * right. apply lookup_delete_eq.
    + intros [= <-]. split; [|by right]. split; [done|]. by right.
  - intros [= <-]. split; [|by left]. split; [done|]. by right.
Qed.

Lemma getCachedDecision_hit key d w w' :
  getCachedDecision E this key w = (Ok (Some d), w') ->
  w' = tick w /\ exists entry, cache w !! key = Some entry /\ d = decision entry.
Proof.
  rewrite getCachedDecision_eq. destruct (cacheEnabled this); [|done].
  destruct (cache w !! key) as [entry|]; [|done].
  destruct (_ <? _)%Z; [|done]. intros [= <- <-]. eauto.
Qed.

Lemma getCachedDecision_absent key w :
  cacheEnabled this = false \/ cache w !! key = None ->
  getCachedDecision E this key w = (Ok None, w).
Proof.
  rewrite getCachedDecision_eq. intros [->| ->]; [done|].
  by destruct (cacheEnabled this).
Qed.

Lemma getCachedDecision_ok key w :
  exists r w', getCachedDecision E this key w = (Ok r, w').
Proof.
  rewrite getCachedDecision_eq. destruct (cacheEnabled this); [|by eauto].
  destruct (cache w !! key); [|by eauto]. destruct (_ <? _)%Z; eauto.
Qed.

Lemma shrinks_refl w : shrinks w w.
Proof. split; [done|]. by right. Qed.

Lemma shrinks_trans w1 w2 w3 : shrinks w1 w2 -> shrinks w2 w3 -> shrinks w1 w3.
Proof.
  intros [Hr1 H1] [Hr2 H2]. split; [congruence|]. intros k.
  destruct (H2 k) as [?| ->]; [by left|apply H1].
Qed.

Lemma shrinks_tick w : shrinks w (tick w).
Proof. split; [done|]. by right. Qed.

Lemma shrinks_None w w' k : shrinks w w' -> cache w !! k = None -> cache w' !! k = None.
Proof. intros [_ H] Hk. destruct (H k) as [?| ->]; done. Qed.

Lemma shrinks_Some w w' k entry :
  shrinks w w' -> cache w' !! k = Some entry -> cache w !! k = Some entry.
Proof. intros [_ H] Hk. destruct (H k) as [?|<-]; [congruence|done]. Qed.

End QueryFacts.

Section BatchFacts.

Context (E : Oracle) (this : OpaService).

Lemma check_cache_spec uid claims now ip items :
  forall i results unc w,
  exists hits misses w',
    check_cache E this uid claims now ip i items results unc w
      = (Ok (results ++ hits, unc ++ misses), w') /\
    shrinks w w' /\
    map index hits ++ misses.*1 ≡ₚ seq i (length items) /\
    Forall (from_cache this uid claims now ip items i w) hits /\
    Forall (uncached this uid claims now ip items i w') misses.
Proof.
  induction items as [|item items IH]; intros i results unc w.
  - exists [], [], w. simpl. rewrite !app_nil_r.
    split_and!; try done. apply shrinks_refl.
  - cbn [check_cache]. unfold bind at 1.
    destruct (getCachedDecision_ok E this
                (getCacheKey (item_input uid claims now ip item)) w)
      as (r & w1 & Hlook).
    rewrite Hlook. destruct r as [d|].
    + apply getCachedDecision_hit in Hlook as (-> & entry & Hentry & ->).
      destruct (IH (S i) (results ++ [item_granted i (decision entry)]) unc (tick w))
        as (hits & misses & w' & -> & Hsh & Hperm & Hhits & Hmiss).
      exists (item_granted i (decision entry) :: hits), misses, w'.
      split_and!.
      * by rewrite <- app_assoc.
      * eapply shrinks_trans; [apply shrinks_tick|done].
      * simpl. by rewrite Hperm.
      * constructor.
        -- exists item, entry. simpl. rewrite Nat.sub_diag. by split_and!.
        -- eapply Forall_impl; [exact Hhits|].
           intros r (item' & entry' & Hle & Hitem & Hc & Hr).
           exists item', entry'. split_and!; try done; [lia|].
           by replace (index r - i) with (S (index r - S i)) by lia.
      * eapply Forall_impl; [exact Hmiss|].
        intros m (item' & Hle & Hitem & Hin & Hc).
        exists item'. split_and!; try done; [lia|].
        by replace (m.1 - i) with (S (m.1 - S i)) by lia.
    + apply getCachedDecision_miss in Hlook as [Hsh1 Habs].
      destruct (IH (S i) results
                  (unc ++ [(i, item_input uid claims now ip item)]) w1)
        as (hits & misses & w' & -> & Hsh & Hperm & Hhits & Hmiss).
      exists hits, ((i, item_input uid claims now ip item) :: misses), w'.
      split_and!.
      * by rewrite <- app_assoc.
      * by eapply shrinks_trans.
      * simpl. rewrite <- Hperm. by rewrite Permutation_middle.
      * eapply Forall_impl; [exact Hhits|].
        intros r (item' & entry' & Hle & Hitem & Hc & Hr).
        exists item', entry'. split_and!; try done; [lia| |].
        -- by replace (index r - i) with (S (index r - S i)) by lia.
        -- by eapply shrinks_Some.
      * constructor.
        -- exists item. simpl. rewrite Nat.sub_diag. split_and!; try done.
           destruct Habs as [?|Habs]; [by left|right].
           by eapply shrinks_None.
        -- eapply Forall_impl; [exact Hmiss|].
           intros m (item' & Hle & Hitem & Hin & Hc).
           exists item'. split_and!; try done; [lia|].
           by replace (m.1 - i) with (S (m.1 - S i)) by lia.
Qed.

Lemma add_requests_add sent1 sent2 w :
  add_requests sent2 (add_requests sent1 w) = add_requests (sent1 ++ sent2) w.
Proof. unfold add_requests. simpl. by rewrite app_assoc. Qed.

(** A query whose key has no entry goes to the endpoint: one request. *)
Lemma query_absent input w :
  cacheEnabled this = false \/ cache w !! getCacheKey input = None ->
  query E this input w =
    (Pending (query_resume E this (getCacheKey input)
                (opa E (length (requests w)) input)),
     add_requests [(decision_url this, input)] w).
Proof.
  intros Habs. unfold query. by rewrite getCachedDecision_absent.
Qed.

Lemma start_all_query_item misses :
  forall w,
  Forall (fun m => cacheEnabled this = false \/
                   cache w !! getCacheKey m.2 = None) misses ->
  start_all (query_item E this) misses w =
    (Ok (imap (fun k m =>
                 Pending (item_resume E this m.1 (getCacheKey m.2)
                            (opa E (length (requests w) + k) m.2))) misses),
     add_requests (map (fun m => (decision_url this, m.2)) misses) w).
Proof.
  induction misses as [|m misses IH]; intros w Habs.
  - simpl. unfold ret, add_requests. simpl. rewrite app_nil_r. by destruct w.
  - apply Forall_cons in Habs as [Hm Habs].
    cbn [start_all]. unfold query_item at 1. rewrite (query_absent _ _ Hm).
    unfold bind. rewrite IH by done. simpl. unfold ret. f_equal.
    + rewrite Nat.add_0_r. do 2 f_equal. apply imap_ext. intros k m' _. simpl.
      rewrite length_app. simpl. do 3 f_equal. lia.
    + by rewrite add_requests_add.
Qed.

Lemma fresh_results_ok n0 misses :
  Forall2 (slot_ok (stores (answered E n0 misses)))
    (imap (fun k m =>
             Pending (item_resume E this m.1 (getCacheKey m.2)
                        (opa E (n0 + k) m.2))) misses)
    (fresh_results E n0 misses).
Proof.
  unfold fresh_results.
  apply Forall2_same_length_lookup_2; [by rewrite !length_imap|].
  intros k p v. rewrite !list_lookup_imap.
  destruct (misses !! k) as [m|] eqn:Hk; [|done]. simpl.
  intros [= <-] [= <-]. right. eexists. split; [done|].
  apply item_resume_yields. intros d Hd. by exists k, m.
Qed.

Lemma fresh_results_index n0 misses :
  map index (fresh_results E n0 misses) = misses.*1.
Proof.
  unfold fresh_results. apply list_eq. intros k.
  rewrite !list_lookup_fmap, list_lookup_imap.
  destruct (misses !! k) as [m|]; [|done]. simpl.
  by destruct (answer_outcome _).
Qed.

(** What [queryBatch] does, whatever the order in which the calls end. *)
Lemma queryBatch_spec uid claims items ip w :
  let now := toISOString E (clock E (clock_reads w)) in
  exists hits misses w1,
    check_cache E this uid claims now ip 0 items [] [] (tick w)
      = (Ok (hits, misses), w1) /\
    shrinks w w1 /\
    map index hits ++ misses.*1 ≡ₚ seq 0 (length items) /\
    Forall (from_cache this uid claims now ip items 0 w) hits /\
    Forall (uncached this uid claims now ip items 0 w1) misses /\
    forall schedule,
    exists w',
      queryBatch E this uid claims items ip schedule w
        = (Ok (sort_by_index
                 (hits ++ fresh_results E (length (requests w)) misses)), w') /\
      stores (answered E (length (requests w)) misses)
        (add_requests (map (fun m => (decision_url this, m.2)) misses) w1) w'.
Proof.
  intros now.
  destruct (check_cache_spec uid claims now ip items 0 [] [] (tick w))
    as (hits & misses & w1 & Hcheck & Hsh & Hperm & Hhits & Hmiss).
  simpl in Hcheck. exists hits, misses, w1.
  split; [done|]. split; [eapply shrinks_trans; [apply shrinks_tick|done]|].
  split; [done|]. split; [exact Hhits|]. split; [done|].
  intros schedule. unfold queryBatch. unfold bind at 1.
  unfold Date_now. cbv beta iota. fold (tick w). fold now.
  unfold bind at 1. rewrite Hcheck. cbv beta iota. cbn [fst snd].
  destruct misses as [|m misses'] eqn:Hmisses.
  - simpl. unfold ret. rewrite !app_nil_r. eexists. split; [done|].
    unfold add_requests. simpl. rewrite app_nil_r.
    destruct w1; reflexivity.
  - rewrite <- Hmisses in *. replace (length misses =? 0)%nat with false
      by (by rewrite Hmisses).
    unfold bind at 1. rewrite start_all_query_item; last first.
    { eapply Forall_impl; [exact Hmiss|]. by intros m' (? & _ & _ & _ & ?). }
    destruct Hsh as [Hreq _]. rewrite Hreq. simpl requests.
    unfold bind at 1.
    destruct (Promise_all_ok (stores (answered E (length (requests w)) misses))
                _ _ schedule
                (add_requests (map (fun m => (decision_url this, m.2)) misses) w1)
                (fresh_results_ok (length (requests w)) misses))
      as (w' & -> & Hstores).
    unfold ret. by exists w'.
Qed.

Lemma lookup_by_index (results : list OpaBatchResult) n r :
  map index results = seq 0 n -> r ∈ results -> results !! index r = Some r.
Proof.
  intros Hidx Hin. apply list_elem_of_lookup in Hin as [j Hj].
  assert (map index results !! j = Some (index r)) as Hm
    by (by rewrite list_lookup_fmap, Hj).
  rewrite Hidx in Hm. apply lookup_seq in Hm as [-> _]. done.
Qed.

Lemma batch_request_lookup (sent : list (string * OpaInput))
    (misses : list (nat * OpaInput)) k url input :
  (sent ++ map (fun m => (decision_url this, m.2)) misses) !! (length sent + k)
    = Some (url, input) ->
  exists i, misses !! k = Some (i, input).
Proof.
  rewrite lookup_app_r by lia. replace (length sent + k - length sent) with k by lia.
  rewrite list_lookup_fmap. destruct (misses !! k) as [[i input']|]; [|done].
  simpl. intros [= _ <-]. by exists i.
Qed.

(** The results of a batch: one per item and in the order of the items;
    each is the cached decision of its item, or what the item's own call
    came to.  The calls are the requests for the items that missed. *)
Lemma queryBatch_results uid claims items ip w :
  let now := toISOString E (clock E (clock_reads w)) in
  let n0 := length (requests w) in
  exists hits misses w1 results,
    check_cache E this uid claims now ip 0 items [] [] (tick w)
      = (Ok (hits, misses), w1) /\
    shrinks w w1 /\
    Forall (uncached this uid claims now ip items 0 w1) misses /\
    length hits + length misses = length items /\
    results = sort_by_index (hits ++ fresh_results E n0 misses) /\
    map index results = seq 0 (length items) /\
    (forall i item, items !! i = Some item ->
       let input := item_input uid claims now ip item in
       exists r, results !! i = Some r /\ index r = i /\
         ((exists entry, cache w !! getCacheKey input = Some entry /\
                         r = item_granted i (decision entry)) \/
          (exists k, misses !! k = Some (i, input) /\
                     r = item_result i (answer_outcome (opa E (n0 + k) input))))) /\
    (forall k m, misses !! k = Some m ->
       results !! m.1 = Some (item_result m.1 (answer_outcome (opa E (n0 + k) m.2)))) /\
    forall schedule,
    exists w',
      queryBatch E this uid claims items ip schedule w = (Ok results, w') /\
      stores (answered E n0 misses)
        (add_requests (map (fun m => (decision_url this, m.2)) misses) w1) w'.
Proof.
  intros now n0.
  destruct (queryBatch_spec uid claims items ip w)
    as (hits & misses & w1 & Hcheck & Hsh & Hperm & Hhits & Hmiss & Hrun).
  fold now in Hcheck, Hhits, Hmiss. fold n0 in Hrun.
  set (results := sort_by_index (hits ++ fresh_results E n0 misses)).
  assert (map index results = seq 0 (length items)) as Hidx.
  { apply sort_by_index_seq. by rewrite map_app, fresh_results_index. }
  assert (forall k m, misses !! k = Some m ->
            results !! m.1
              = Some (item_result m.1 (answer_outcome (opa E (n0 + k) m.2)))) as Hfresh.
  { intros k m Hk.
    assert (item_result m.1 (answer_outcome (opa E (n0 + k) m.2)) ∈ results) as Hin.
    { unfold results. rewrite sort_by_index_perm. apply elem_of_app. right.
      apply list_elem_of_lookup. exists k. unfold fresh_results.
      by rewrite list_lookup_imap, Hk. }
    apply (lookup_by_index _ _ _ Hidx) in Hin.
    by destruct (answer_outcome _). }
  exists hits, misses, w1, results. split_and!; try done.
  - apply Permutation_length in Hperm.
    by rewrite length_app, !length_map, length_seq in Hperm.
  - intros i item Hi input.
    assert (i < length results) as Hlt.
    { rewrite <- (length_map index), Hidx, length_seq.
      by eapply lookup_lt_Some. }
    apply lookup_lt_is_Some in Hlt as [r Hr]. exists r.
    assert (index r = i) as Hir.
    { assert (map index results !! i = Some (index r)) as Hm
        by (by rewrite list_lookup_fmap, Hr).
      rewrite Hidx in Hm. by apply lookup_seq in Hm as [-> _]. }
    subst i. split_and!; try done.
    assert (r ∈ hits ++ fresh_results E n0 misses) as Hin.
    { rewrite <- (sort_by_index_perm (hits ++ _)).
      apply list_elem_of_lookup. by exists (index r). }
    apply elem_of_app in Hin as [Hin|Hin].
    + left. rewrite Forall_forall in Hhits.
      destruct (Hhits r Hin) as (item' & entry & _ & Hitem & Hc & Hgr).
      rewrite Nat.sub_0_r, Hi in Hitem. injection Hitem as <-.
      by exists entry.
    + right. apply list_elem_of_lookup in Hin as [k Hk].
      unfold fresh_results in Hk. rewrite list_lookup_imap in Hk.
      destruct (misses !! k) as [m|] eqn:Hmk; [|done]. simpl in Hk.
      injection Hk as Hk.
      assert (m.1 = index r) as Hmi.
      { rewrite <- Hk. by destruct (answer_outcome _). }
      rewrite Forall_forall in Hmiss.
      destruct (Hmiss m) as (item' & _ & Hitem & Hin & _).
      { apply list_elem_of_lookup. by exists k. }
      rewrite Nat.sub_0_r, Hmi, Hi in Hitem. injection Hitem as <-.
      exists k. destruct m as [i' input']. simpl in *. subst i' input'.
      split; [exact Hmk|exact (eq_sym Hk)].
Qed.

(** With the cache switched off the first loop of [queryBatch] leaves every
    item for the endpoint. *)
Lemma check_cache_disabled uid claims now ip items :
  cacheEnabled this = false ->
  forall i results unc w,
    check_cache E this uid claims now ip i items results unc w
      = (Ok (results,
             unc ++ imap (fun k item => (i + k, item_input uid claims now ip item)) items),
         w).
Proof.
  intros Hoff. induction items as [|item items IH]; intros i results unc w.
  - simpl. by rewrite app_nil_r.
  - cbn [check_cache]. unfold bind at 1.
    rewrite getCachedDecision_absent by by left.
    rewrite IH. simpl. rewrite <- app_assoc. simpl. rewrite Nat.add_0_r.
    do 5 f_equal. apply imap_ext. intros k x _. simpl. f_equal. lia.
Qed.

(** The result of an item of a batch: the decision of the entry that the
    cache, when it is in use, held under the item's key, or what the
    answer to the item's own request comes to. *)
Lemma queryBatch_item_result uid claims items ip schedule w results w' i item :
  queryBatch E this uid claims items ip schedule w = (Ok results, w') ->
  items !! i = Some item ->
  let input :=
    item_input uid claims (toISOString E (clock E (clock_reads w))) ip item in
  (cacheEnabled this = true /\
   exists entry, cache w !! getCacheKey input = Some entry /\
                 results !! i = Some (item_granted i (decision entry))) \/
  (exists k,
     requests w' !! (length (requests w) + k) = Some (decision_url this, input) /\
     results !! i
       = Some (item_result i (answer_outcome (opa E (length (requests w) + k) input)))).
Proof.
  intros Hq Hitem input.
  destruct (queryBatch_results uid claims items ip w)
    as (hits & misses & w1 & results' & Hcheck & Hsh & _ & _ & _ & _
        & Hpos & Hfresh & Hrun).
  destruct (Hrun schedule) as (w'' & Hq' & [Hreq _]).
  rewrite Hq in Hq'. injection Hq' as <- <-.
  destruct Hsh as [Hreq1 _]. simpl in Hreq. rewrite Hreq1 in Hreq.
  assert (forall k, misses !! k = Some (i, input) ->
            requests w' !! (length (requests w) + k)
              = Some (decision_url this, input)) as Hsent.
  { intros k Hk. rewrite Hreq, lookup_app_r by lia.
    replace (length (requests w) + k - length (requests w)) with k by lia.
    by rewrite list_lookup_fmap, Hk. }
  destruct (cacheEnabled this) eqn:Hen.
  - destruct (Hpos i item Hitem) as (r & Hr & _ & [(entry & Hentry & ->)|(k & Hk & ->)]).
    + left. split; [done|]. by exists entry.
    + right. exists k. split; [by apply Hsent|done].
  - right. exists i.
    rewrite (check_cache_disabled uid claims _ ip items Hen 0 [] [] (tick w)) in Hcheck.
    injection Hcheck as <- <- _.
    assert (imap (fun k item0 =>
                    (0 + k, item_input uid claims
                              (toISOString E (clock E (clock_reads w))) ip item0))
              items !! i = Some (i, input)) as Hk.
    { by rewrite list_lookup_imap, Hitem. }
    split; [by apply Hsent|]. exact (Hfresh i _ Hk).
Qed.

(** The request number [n0 + k] of a batch is the request of one item,
    and the result at the position of that item is what the answer to this
    request comes to. *)
Lemma queryBatch_call_result uid claims items ip schedule w results w' k url input :
  queryBatch E this uid claims items ip schedule w = (Ok results, w') ->
  requests w' !! (length (requests w) + k) = Some (url, input) ->
  exists i item,
    items !! i = Some item /\
    input = item_input uid claims (toISOString E (clock E (clock_reads w))) ip item /\
    results !! i
      = Some (item_result i (answer_outcome (opa E (length (requests w) + k) input))).
Proof.
  intros Hq Hk.
  destruct (queryBatch_results uid claims items ip w)
    as (hits & misses & w1 & results' & _ & Hsh & Hmiss & _ & _ & _
        & _ & Hfresh & Hrun).
  destruct (Hrun schedule) as (w'' & Hq' & [Hreq _]).
  rewrite Hq in Hq'. injection Hq' as <- <-.
  destruct Hsh as [Hreq1 _]. simpl in Hreq. rewrite Hreq1 in Hreq.
  rewrite Hreq in Hk. apply batch_request_lookup in Hk as [i Hk].
  rewrite Forall_forall in Hmiss.
  destruct (Hmiss (i, input)) as (item & _ & Hitem & Hin & _).
  { apply list_elem_of_lookup. by exists k. }
  simpl in Hitem, Hin. rewrite Nat.sub_0_r in Hitem.
  exists i, item. split_and!; try done. exact (Hfresh k _ Hk).
Qed.

Lemma queryBatch_returns uid claims items ip schedule w :
  exists results w',
    queryBatch E this uid claims items ip schedule w = (Ok results, w') /\
    length results = length items.
Proof.
  destruct (queryBatch_results uid claims items ip w)
    as (hits & misses & w1 & results & _ & _ & _ & _ & _ & Hidx & _ & _ & Hrun).
  destruct (Hrun schedule) as (w' & Hq & _).
  exists results, w'. split; [done|].
  by rewrite <- (length_map index results), Hidx, length_seq.
Qed.

End BatchFacts.

(** ** The single check *)

Section SingleFacts.

Context (E : Oracle) (this : OpaService).

Lemma await_query_eq input w :
  await (query E this input) w =
    match getCachedDecision E this (getCacheKey input) w with
    | (Ok (Some d), w') => (Ok d, w')
    | (Ok None, w') =>
        query_resume E this (getCacheKey input)
          (opa E (length (requests w')) input)
          (add_requests [(decision_url this, input)] w')
    | (Throw e, w') => (Throw e, w')
    end.
Proof.
  unfold await, query.
  by destruct (getCachedDecision E this (getCacheKey input) w) as [[[d|]|e] w'].
Qed.

(** A query that finds a live entry returns its decision and sends
    nothing. *)
Lemma await_query_hit input entry w :
  cacheEnabled this = true ->
  cache w !! getCacheKey input = Some entry ->
  (clock E (clock_reads w) < expiry entry)%Z ->
  await (query E this input) w = (Ok (decision entry), tick w).
Proof.
  intros Hen Hc Hlt. rewrite await_query_eq, getCachedDecision_eq, Hen, Hc.
  by apply Z.ltb_lt in Hlt as ->.
Qed.

(** A query that returns leaves its decision in the cache, when the cache
    is in use: the entry it found, or a new one that expires one TTL after
    the clock reading at which it was stored. *)
Lemma await_query_cached input d w w1 :
  cacheEnabled this = true ->
  await (query E this input) w = (Ok d, w1) ->
  exists entry,
    cache w1 !! getCacheKey input = Some entry /\ decision entry = d /\
    ((requests w1 = requests w /\ cache w !! getCacheKey input = Some entry /\
      (clock E (clock_reads w) < expiry entry)%Z)
     \/
     (requests w1 = requests w ++ [(decision_url this, input)] /\
      answer_outcome (opa E (length (requests w)) input) = Ok d /\
      expiry entry = (clock E (Nat.pred (clock_reads w1)) + cacheTtlMs this)%Z)).
Proof.
  intros Hen. rewrite await_query_eq.
  destruct (getCachedDecision E this (getCacheKey input) w)
    as [[[d'|]|e] w'] eqn:Hlook.
  - intros [= -> ->]. 
    rewrite getCachedDecision_eq, Hen in Hlook.
    destruct (cache w !! getCacheKey input) as [entry|] eqn:Hc; [|done].
    destruct (Z.ltb_spec (clock E (clock_reads w)) (expiry entry)); [|done].
    injection Hlook as <- <-. exists entry. split_and!; try done. by left.
  - apply getCachedDecision_miss in Hlook as [[Hreq _] _].
    rewrite query_resume_eq. simpl. rewrite Hreq.
    destruct (answer_outcome _) as [d'|e] eqn:Hans; [|done].
    rewrite cacheDecision_eq, Hen. simpl. intros [= -> <-]. simpl.
    eexists. rewrite lookup_insert_eq. split_and!; try done.
    right. by rewrite Hreq.
  - done.
Qed.

(** What a query puts in the cache is the decision of an answer. *)
Lemma await_query_stores input r w w' :
  await (query E this input) w = (r, w') ->
  forall key entry, cache w' !! key = Some entry ->
    cache w !! key = Some entry \/
    (key = getCacheKey input /\
     answer_outcome (opa E (length (requests w)) input) = Ok (decision entry)).
Proof.
  rewrite await_query_eq.
  destruct (getCachedDecision E this (getCacheKey input) w)
    as [[[d'|]|e] w1] eqn:Hlook.
  - apply getCachedDecision_hit in Hlook as (-> & _). intros [= _ <-]. by left.
  - apply getCachedDecision_miss in Hlook as [Hsh _].
    rewrite query_resume_eq. simpl. destruct Hsh as [Hreq Hsh]. rewrite Hreq.
    destruct (answer_outcome _) as [d|e] eqn:Hans.
    + rewrite cacheDecision_eq. destruct (cacheEnabled this); simpl.
      * intros [= _ <-] key entry. simpl.
        destruct (decide (key = getCacheKey input)) as [->|Hne].
        -- rewrite lookup_insert_eq. intros [= <-]. by right.
        -- rewrite lookup_insert_ne by done. intros Hk. left.
           destruct (Hsh key) as [?|<-]; [congruence|done].
      * intros [= _ <-] key entry Hk. simpl in Hk. left.
        destruct (Hsh key) as [?|<-]; [congruence|done].
    + intros [= _ <-] key entry Hk. simpl in Hk. left.
      destruct (Hsh key) as [?|<-]; [congruence|done].
  - destruct (getCachedDecision_ok E this (getCacheKey input) w) as (? & ? & ?).
    congruence.
Qed.

(** A query that throws has sent its request and left no entry under its
    key. *)
Lemma await_query_throws input e w w' :
  await (query E this input) w = (Throw e, w') ->
  answer_outcome (opa E (length (requests w)) input) = Throw e /\
  requests w' = requests w ++ [(decision_url this, input)] /\
  (cacheEnabled this = false \/ cache w' !! getCacheKey input = None).
Proof.
  rewrite await_query_eq.
  destruct (getCachedDecision E this (getCacheKey input) w)
    as [[[d'|]|e'] w1] eqn:Hlook; [done| |].
  - apply getCachedDecision_miss in Hlook as [[Hreq _] Habs].
    rewrite query_resume_eq. simpl. rewrite Hreq.
    destruct (answer_outcome _) as [d|e''] eqn:Hans; [done|].
    intros [= -> <-]. simpl. by rewrite Hreq.
  - destruct (getCachedDecision_ok E this (getCacheKey input) w) as (? & ? & ?).
    congruence.
Qed.

Lemma await_query_requests input r w w' :
  await (query E this input) w = (r, w') ->
  requests w' = requests w \/ requests w' = requests w ++ [(decision_url this, input)].
Proof.
  rewrite await_query_eq.
  destruct (getCachedDecision E this (getCacheKey input) w)
    as [[[d'|]|e'] w1] eqn:Hlook.
  - apply getCachedDecision_hit in Hlook as (-> & _). intros [= _ <-]. by left.
  - apply getCachedDecision_miss in Hlook as [[Hreq _] _].
    rewrite query_resume_eq. destruct (answer_outcome _).
    + rewrite cacheDecision_eq. destruct (cacheEnabled this);
        intros [= _ <-]; simpl; rewrite Hreq; by right.
    + intros [= _ <-]. simpl. rewrite Hreq. by right.
  - intros [= _ <-]. destruct (getCachedDecision_ok E this (getCacheKey input) w)
      as (? & ? & ?). congruence.
Qed.

(** A query that sent a request returns, or throws, what the answer to
    that request comes to. *)
Lemma await_query_sent input r w w' :
  await (query E this input) w = (r, w') ->
  requests w' = requests w \/
  (requests w' = requests w ++ [(decision_url this, input)] /\
   r = answer_outcome (opa E (length (requests w)) input)).
Proof.
  rewrite await_query_eq.
  destruct (getCachedDecision E this (getCacheKey input) w)
    as [[[d'|]|e'] w1] eqn:Hlook.
  - apply getCachedDecision_hit in Hlook as (-> & _). intros [= _ <-]. by left.
  - apply getCachedDecision_miss in Hlook as [[Hreq _] _].
    rewrite query_resume_eq. simpl. rewrite Hreq.
    destruct (answer_outcome _).
    + rewrite cacheDecision_eq. destruct (cacheEnabled this);
        intros [= <- <-]; simpl; rewrite Hreq; by right.
    + intros [= <- <-]. simpl. rewrite Hreq. by right.
  - intros [= _ <-]. destruct (getCachedDecision_ok E this (getCacheKey input) w)
      as (? & ? & ?). congruence.
Qed.

(** Two checks in a row: the second, made before the entry expires and
    with an input of the same key, is answered from the cache. *)
Lemma query_then_hit input input' d w w1 :
  getCacheKey input' = getCacheKey input ->
  cacheEnabled this = true ->
  await (query E this input) w = (Ok d, w1) ->
  exists entry,
    cache w1 !! getCacheKey input = Some entry /\ decision entry = d /\
    (requests w1 <> requests w ->
       expiry entry = (clock E (Nat.pred (clock_reads w1)) + cacheTtlMs this)%Z) /\
    ((clock E (clock_reads w1) < expiry entry)%Z ->
       await (query E this input') w1 = (Ok d, tick w1)).
Proof.
  intros Hkey Hen Hrun.
  destruct (await_query_cached _ _ _ _ Hen Hrun) as (entry & Hc & Hd & Hcase).
  exists entry. split_and!; try done.
  - intros Hne. by destruct Hcase as [[? _]|[_ [_ ?]]].
  - intros Hlt. rewrite <- Hd. apply await_query_hit; [done| |done].
    by rewrite Hkey.
Qed.

End SingleFacts.

(** ** The entry points *)

Section AuthorizeFacts.

Context (E : Oracle).

Lemma verifyToken_eq tok w :
  verifyToken E tok w =
    match verifyIdToken E tok with
    | Ok decoded => (Ok (token_uid decoded, token_claims decoded), w)
    | Throw _ => (Throw (JsError "Invalid ID token"), w)
    end.
Proof. unfold verifyToken, try_catch, bind, lift. by destruct (verifyIdToken E tok). Qed.

Lemma isAllowed_eq this uid claims action resource ip w :
  isAllowed E this uid claims action resource ip w =
    match await (query E this
                   (single_input E uid claims action resource ip
                      (clock E (clock_reads w)))) (tick w) with
    | (Ok d, w') => (Ok (allow d, d), w')
    | (Throw e, w') => (Throw e, w')
    end.
Proof.
  unfold isAllowed. unfold bind at 1. unfold Date_now. cbv beta iota.
  fold (tick w). unfold bind. destruct (await _ _) as [[d|e] w']; [|done].
  unfold ret, strict_allow. by destruct (allow d).
Qed.

Lemma no_token_false idToken :
  no_token idToken = false ->
  exists tok, idToken = Some tok /\ tok <> EmptyString.
Proof. destruct idToken as [[|c tok]|]; try done. intros _. by eexists. Qed.

(** [authorize] with a token, case by case. *)
Lemma authorize_eq tok action resource context w :
  tok <> EmptyString ->
  authorize E (Some tok) action resource context w =
    match verifyIdToken E tok with
    | Throw _ => (Ok (auth_denied "Invalid ID token"), w)
    | Ok decoded =>
        let uid := token_uid decoded in
        let claims := token_claims decoded in
        match await (query E (opaService E)
                       (single_input E uid claims action resource
                          (context_ip context) (clock E (clock_reads w))))
                (tick w) with
        | (Ok d, w') => (Ok (auth_checked (allow d) d uid claims), w')
        | (Throw e, w') =>
            (Ok (auth_denied (error_message "authorization-error" e)), w')
        end
    end.
Proof.
  intros Htok. unfold authorize.
  replace (no_token (Some tok)) with false by (by destruct tok).
  unfold try_catch, bind. simpl default. rewrite verifyToken_eq.
  destruct (verifyIdToken E tok) as [decoded|e]; [|done].
  cbn [fst snd]. rewrite isAllowed_eq.
  by destruct (await _ _) as [[d|e] w'].
Qed.

(** [authorizeBatch] with a token, case by case. *)
Lemma authorizeBatch_eq tok reqs schedule w :
  tok <> EmptyString ->
  authorizeBatch E (Some tok) reqs schedule w =
    match verifyIdToken E tok with
    | Throw _ => (Ok (all_denied "Invalid ID token" reqs), w)
    | Ok decoded =>
        let uid := token_uid decoded in
        let claims := token_claims decoded in
        match queryBatch E (opaService E) uid claims (to_items reqs)
                (context_ip (head reqs ≫= req_context)) schedule w with
        | (Ok results, w') => (Ok (map (to_auth uid claims) results), w')
        | (Throw e, w') =>
            (Ok (all_denied (error_message "authorization-error" e) reqs), w')
        end
    end.
Proof.
  intros Htok. unfold authorizeBatch.
  replace (no_token (Some tok)) with false by (by destruct tok).
  unfold try_catch, bind. simpl default. rewrite verifyToken_eq.
  destruct (verifyIdToken E tok) as [decoded|e]; [|done].
  cbn [fst snd]. fold (to_items reqs).
  by destruct (queryBatch _ _ _ _ _ _ _ _) as [[results|e] w'].
Qed.

Lemma all_denied_length msg reqs : length (all_denied msg reqs) = length reqs.
Proof. unfold all_denied. by rewrite length_imap. Qed.

Lemma all_denied_lookup msg reqs i r :
  all_denied msg reqs !! i = Some r ->
  r = {| auth := auth_denied msg; auth_index := i |}.
Proof.
  unfold all_denied. rewrite list_lookup_imap.
  destruct (reqs !! i); simpl; congruence.
Qed.

(** [authorizeBatch] returns, with one result per request, each at the
    position of its request. *)
Lemma authorizeBatch_returns idToken reqs schedule w :
  exists rs w',
    authorizeBatch E idToken reqs schedule w = (Ok rs, w') /\
    length rs = length reqs /\
    forall i r, rs !! i = Some r -> auth_index r = i.
Proof.
  destruct (no_token idToken) eqn:Hno.
  - unfold authorizeBatch. rewrite Hno. eexists _, _. split; [done|].
    split; [apply all_denied_length|].
    intros i r Hr. by apply all_denied_lookup in Hr as ->.
  - apply no_token_false in Hno as (tok & -> & Htok).
    rewrite authorizeBatch_eq by done.
    destruct (verifyIdToken E tok) as [decoded|e].
    + destruct (queryBatch_results E (opaService E) (token_uid decoded)
                  (token_claims decoded) (to_items reqs)
                  (context_ip (head reqs ≫= req_context)) w)
        as (hits & misses & w1 & results & _ & _ & _ & _ & _ & Hidx & _ & _ & Hrun).
      destruct (Hrun schedule) as (w' & Hq & _). cbv zeta. rewrite Hq.
      eexists _, _. split; [done|]. split.
      * rewrite length_map, <- (length_map index results), Hidx, length_seq.
        unfold to_items. by rewrite length_map.
      * intros i r. rewrite list_lookup_fmap.
        destruct (results !! i) as [res|] eqn:Hres; [|done].
        intros [= <-]. simpl.
        assert (map index results !! i = Some (index res)) as Hm
          by (by rewrite list_lookup_fmap, Hres).
        rewrite Hidx in Hm. by apply lookup_seq in Hm as [-> _].
    + eexists _, _. split; [done|]. split; [apply all_denied_length|].
      intros i r Hr. by apply all_denied_lookup in Hr as ->.
Qed.

End AuthorizeFacts.

(** * The claims *)

(** C1, as the code has it.  The key is [JSON.stringify] of the resource in
    the order in which the resource enumerates its fields: the same fields
    in the same order give the same key, whatever the claims and the
    request context, and two fields with different names and defined values
    give different keys when they are written in the opposite order.  The
    two names are names that an object keeps where they were written; of
    other names the statement says nothing (two array indices give one key
    whichever is written first). *)
Theorem getCacheKey_field_order u a r c1 e1 c2 e2 k1 v1 k2 v2 :
  kept_in_place k1 = true -> kept_in_place k2 = true ->
  k1 <> k2 -> v1 <> JUndefined -> v2 <> JUndefined ->
  getCacheKey {| uid := u; tokenClaims := c1; action := a; resource := r; env := e1 |}
    = getCacheKey {| uid := u; tokenClaims := c2; action := a; resource := r; env := e2 |}
  /\
  getCacheKey {| uid := u; tokenClaims := c1; action := a;
                 resource := [(k1, v1); (k2, v2)]; env := e1 |}
    <> getCacheKey {| uid := u; tokenClaims := c2; action := a;
                      resource := [(k2, v2); (k1, v1)]; env := e2 |}.
Proof.
  intros _ _ Hk Hv1 Hv2. split.
  - by apply getCacheKey_fields.
  - by apply getCacheKey_first_field.
Qed.

(** C1 fails as stated: the two orders of the fields [type] and [id] of the
    same resource give two different keys. *)
Lemma getCacheKey_field_order_counterexample :
  Examples.type_id ≡ₚ Examples.id_type /\
  getCacheKey (Examples.read_post Examples.type_id [] JNull)
    <> getCacheKey (Examples.read_post Examples.id_type [] JNull).
Proof.
  split; [apply Permutation_swap|]. vm_compute. discriminate.
Qed.

Section SingleClaims.

Context (E : Oracle) (this : OpaService).

(** C5.  With the cache in use, a query that returned a decision has left
    it in the cache, in an entry that expires one TTL after it was stored
    when the query went to the endpoint; the same query made again before
    that entry expires returns the same decision from the cache and sends
    no request, so the two queries together send at most one. *)
Theorem query_twice_within_ttl input w d w1 :
  cacheEnabled this = true ->
  await (query E this input) w = (Ok d, w1) ->
  exists entry,
    cache w1 !! getCacheKey input = Some entry /\ decision entry = d /\
    (requests w1 <> requests w ->
       expiry entry = (clock E (Nat.pred (clock_reads w1)) + cacheTtlMs this)%Z) /\
    ((clock E (clock_reads w1) < expiry entry)%Z ->
       exists w2,
         await (query E this input) w1 = (Ok d, w2) /\
         requests w2 = requests w1 /\ cache w2 = cache w1 /\
         length (requests w2) <= S (length (requests w))).
Proof.
  intros Hen Hrun.
  destruct (query_then_hit E this input input d w w1 eq_refl Hen Hrun)
    as (entry & Hc & Hd & Hexp & Hhit).
  exists entry. split_and!; try done.
  intros Hlt. exists (tick w1). split_and!; [by apply Hhit|done|done|].
  simpl. destruct (await_query_requests E this _ _ _ _ Hrun) as [->| ->].
  - lia.
  - rewrite length_app. simpl. lia.
Qed.

(** C7.  Inputs that agree on subject, action and resource have the same
    key, whatever their claims and their [env] block; so, with the cache
    in use, a check repeated with another context before the entry expires
    is answered from the cache. *)
Theorem getCacheKey_ignores_context i1 i2 :
  uid i1 = uid i2 -> action i1 = action i2 -> resource i1 = resource i2 ->
  getCacheKey i1 = getCacheKey i2 /\
  forall w d w1,
    cacheEnabled this = true ->
    await (query E this i1) w = (Ok d, w1) ->
    exists entry,
      cache w1 !! getCacheKey i1 = Some entry /\ decision entry = d /\
      ((clock E (clock_reads w1) < expiry entry)%Z ->
         await (query E this i2) w1 = (Ok d, tick w1)).
Proof.
  intros Hu Ha Hr.
  assert (getCacheKey i1 = getCacheKey i2) as Hkey by by apply getCacheKey_fields.
  split; [done|]. intros w d w1 Hen Hrun.
  destruct (query_then_hit E this i1 i2 d w w1 (eq_sym Hkey) Hen Hrun)
    as (entry & Hc & Hd & _ & Hhit).
  by exists entry.
Qed.

End SingleClaims.

Section EntryClaims.

Context (E : Oracle).

(** C8.  Without a token (none, or the empty string) [authorize] returns
    the deny whose decision is [no-token], and [authorizeBatch] returns
    one such deny per request, each with the position of its request; the
    world is left as it was, so no request is sent. *)
Theorem no_token_denied idToken action resource context reqs schedule w :
  idToken = None \/ idToken = Some EmptyString ->
  authorize E idToken action resource context w
    = (Ok {| auth_allow := false; auth_decision := inl "no-token";
             auth_uid := None; auth_claims := [] |}, w) /\
  exists rs,
    authorizeBatch E idToken reqs schedule w = (Ok rs, w) /\
    length rs = length reqs /\
    forall i, i < length reqs ->
      rs !! i = Some {| auth := {| auth_allow := false;
                                   auth_decision := inl "no-token";
                                   auth_uid := None; auth_claims := [] |};
                        auth_index := i |}.
Proof.
  intros Hno.
  assert (no_token idToken = true) as Hnt by by destruct Hno as [-> | ->].
  unfold authorize, authorizeBatch. rewrite Hnt. split; [done|].
  eexists. split; [done|]. split; [by rewrite length_imap|].
  intros i Hi. rewrite list_lookup_imap.
  apply lookup_lt_is_Some in Hi as [req ->]. done.
Qed.

(** C9.  [authorizeAll] and [authorizeAny] return the results of
    [authorizeBatch] for the same arguments, unchanged, with the
    conjunction, respectively the disjunction, of their [allow] flags. *)
Theorem authorizeAll_authorizeAny_reduce idToken reqs schedule w :
  exists results w' allAllowed anyAllowed,
    authorizeBatch E idToken reqs schedule w = (Ok results, w') /\
    authorizeAll E idToken reqs schedule w = (Ok (allAllowed, results), w') /\
    authorizeAny E idToken reqs schedule w = (Ok (anyAllowed, results), w') /\
    (allAllowed = true <-> forall r, r ∈ results -> auth_allow (auth r) = true) /\
    (forall r, r ∈ results -> auth_allow (auth r) = false -> allAllowed = false) /\
    (anyAllowed = true <-> exists r, r ∈ results /\ auth_allow (auth r) = true) /\
    ((forall r, r ∈ results -> auth_allow (auth r) = false) -> anyAllowed = false).
Proof.
  destruct (authorizeBatch_returns E idToken reqs schedule w)
    as (results & w' & Hrun & _).
  exists results, w', (forallb (fun r => auth_allow (auth r)) results),
    (existsb (fun r => auth_allow (auth r)) results).
  unfold authorizeAll, authorizeAny, bind. rewrite Hrun.
  split_and!; try done.
  - rewrite forallb_forall. by setoid_rewrite list_elem_of_In.
  - intros r Hin Hr. apply not_true_is_false. rewrite forallb_forall.
    intros Hall. apply list_elem_of_In in Hin. rewrite (Hall r Hin) in Hr. done.
  - rewrite existsb_exists. by setoid_rewrite list_elem_of_In.
  - intros Hall. apply not_true_is_false. rewrite existsb_exists.
    intros (r & Hin & Hr). apply list_elem_of_In in Hin.
    rewrite (Hall r Hin) in Hr. done.
Qed.

End EntryClaims.

Section BatchClaims.

Context (E : Oracle) (this : OpaService).

(** C3.  Of the [N] items of a batch, the first loop answers [M] from the
    cache and leaves [N - M] for the endpoint.  [queryBatch] sends exactly
    these [N - M] requests and returns [N] results, the one at position
    [i] having index [i] and being the cached decision of item [i] or what
    the call for item [i] came to; the results are the same whatever the
    order in which the calls complete.  For no item, it returns no result
    and sends nothing. *)
Theorem queryBatch_calls_and_order uid claims items ip w :
  let now := toISOString E (clock E (clock_reads w)) in
  let n0 := length (requests w) in
  (exists hits misses w1 results,
     check_cache E this uid claims now ip 0 items [] [] (tick w)
       = (Ok (hits, misses), w1) /\
     length hits + length misses = length items /\
     length results = length items /\
     map index results = seq 0 (length items) /\
     (forall i item, items !! i = Some item ->
        let input := item_input uid claims now ip item in
        exists r, results !! i = Some r /\ index r = i /\
          ((exists entry, cache w !! getCacheKey input = Some entry /\
                          r = item_granted i (decision entry)) \/
           (exists k, misses !! k = Some (i, input) /\
                      r = item_result i (answer_outcome (opa E (n0 + k) input))))) /\
     forall schedule,
     exists w',
       queryBatch E this uid claims items ip schedule w = (Ok results, w') /\
       requests w' = requests w ++ map (fun m => (decision_url this, m.2)) misses /\
       length (requests w') = n0 + (length items - length hits))
  /\
  forall schedule,
    queryBatch E this uid claims [] ip schedule w = (Ok [], tick w).
Proof.
  intros now n0. split; [|done].
  destruct (queryBatch_results E this uid claims items ip w)
    as (hits & misses & w1 & results & Hcheck & Hsh & _ & Hlen & _ & Hidx
        & Hpos & _ & Hrun).
  exists hits, misses, w1, results. split_and!; try done.
  - by rewrite <- (length_map index results), Hidx, length_seq.
  - intros schedule. destruct (Hrun schedule) as (w' & Hq & [Hreq _]).
    exists w'. destruct Hsh as [Hreq1 _]. simpl in Hreq. rewrite Hreq1 in Hreq.
    split_and!; try done.
    rewrite Hreq, length_app, length_map. unfold n0. lia.
Qed.

(** C4.  Each call of a batch decides the result of its own item and of no
    other.  The batch returns one result per item.  Every item has its
    result at its position: the decision of the entry that the cache, when
    it is in use, held under the item's key, or else the outcome of a
    request of this batch that carried the item's input: a deny with the
    error's message as reason when that call failed, the decision and
    [allow] flag the call returned when it succeeded.  So an item with no
    entry under its key, and every item when the cache is off, gets a call
    of its own.  And every request of the batch is the call of one item,
    whose result it decides in this way. *)
Theorem queryBatch_fault_isolated uid claims items ip schedule w :
  let now := toISOString E (clock E (clock_reads w)) in
  let n0 := length (requests w) in
  exists results w',
    queryBatch E this uid claims items ip schedule w = (Ok results, w') /\
    length results = length items /\
    (forall i item,
       items !! i = Some item ->
       let input := item_input uid claims now ip item in
       exists r,
         results !! i = Some r /\ index r = i /\
         ((cacheEnabled this = true /\
           exists entry,
             cache w !! getCacheKey input = Some entry /\
             batch_allow r = allow (decision entry) /\
             batch_decision r = decision entry) \/
          (exists k,
             requests w' !! (n0 + k) = Some (decision_url this, input) /\
             (forall e, answer_outcome (opa E (n0 + k) input) = Throw e ->
                batch_allow r = false /\
                batch_decision r =
                  {| allow := false;
                     reason := Some (error_message "OPA query failed" e);
                     other_fields := [] |}) /\
             (forall d, answer_outcome (opa E (n0 + k) input) = Ok d ->
                batch_allow r = allow d /\ batch_decision r = d)))) /\
    (forall k url input,
       requests w' !! (n0 + k) = Some (url, input) ->
       exists i item r,
         items !! i = Some item /\ input = item_input uid claims now ip item /\
         results !! i = Some r /\ index r = i /\
         (forall e, answer_outcome (opa E (n0 + k) input) = Throw e ->
            batch_allow r = false /\
            batch_decision r =
              {| allow := false;
                 reason := Some (error_message "OPA query failed" e);
                 other_fields := [] |}) /\
         (forall d, answer_outcome (opa E (n0 + k) input) = Ok d ->
            batch_allow r = allow d /\ batch_decision r = d)).
Proof.
  intros now n0.
  destruct (queryBatch_returns E this uid claims items ip schedule w)
    as (results & w' & Hq & Hlen).
  exists results, w'. split; [done|]. split; [done|]. split.
  - intros i item Hitem input.
    destruct (queryBatch_item_result E this _ _ _ _ _ _ _ _ _ _ Hq Hitem)
      as [(Hen & entry & Hentry & Hr)|(k & Hk & Hr)].
    + exists (item_granted i (decision entry)). split_and!; try done.
      left. split; [done|]. by exists entry.
    + exists (item_result i (answer_outcome (opa E (n0 + k) input))).
      split_and!; try done.
      * by destruct (answer_outcome _).
      * right. exists k. split; [done|]. split; [by intros e ->|by intros d ->].
  - intros k url input Hk.
    destruct (queryBatch_call_result E this _ _ _ _ _ _ _ _ _ _ _ Hq Hk)
      as (i & item & Hitem & Hin & Hr).
    exists i, item, (item_result i (answer_outcome (opa E (n0 + k) input))).
    split_and!; try done.
    + by destruct (answer_outcome _).
    + by intros e ->.
    + by intros d ->.
Qed.

(** C10.  A call that fails stores nothing: its continuation throws and
    leaves the world as it was.  So a query that throws leaves no entry
    under its key and the same check made again sends a new request; a
    batch leaves no entry under a key whose calls all failed; and every
    entry that a query or a batch adds to the cache holds the decision of
    an answer that came to a decision. *)
Theorem failed_calls_not_cached :
  (forall key answer e w,
     answer_outcome answer = Throw e ->
     query_resume E this key answer w = (Throw e, w)) /\
  (forall input e w w',
     await (query E this input) w = (Throw e, w') ->
     (cacheEnabled this = false \/ cache w' !! getCacheKey input = None) /\
     exists resume,
       query E this input w'
         = (Pending resume, add_requests [(decision_url this, input)] w')) /\
  (forall input r w w' key entry,
     await (query E this input) w = (r, w') ->
     cache w' !! key = Some entry ->
     cache w !! key = Some entry \/
     (key = getCacheKey input /\
      answer_outcome (opa E (length (requests w)) input) = Ok (decision entry))) /\
  (forall uid claims items ip schedule w results w',
     queryBatch E this uid claims items ip schedule w = (Ok results, w') ->
     let n0 := length (requests w) in
     (forall key entry,
        cache w' !! key = Some entry ->
        cache w !! key = Some entry \/
        exists k url input,
          requests w' !! (n0 + k) = Some (url, input) /\
          getCacheKey input = key /\
          answer_outcome (opa E (n0 + k) input) = Ok (decision entry)) /\
     (forall k url input,
        requests w' !! (n0 + k) = Some (url, input) ->
        (forall k' url' input',
           requests w' !! (n0 + k') = Some (url', input') ->
           getCacheKey input' = getCacheKey input ->
           exists e, answer_outcome (opa E (n0 + k') input') = Throw e) ->
        (cacheEnabled this = false \/ cache w' !! getCacheKey input = None) /\
        exists resume,
          query E this input w'
            = (Pending resume, add_requests [(decision_url this, input)] w'))).
Proof.
  split_and!.
  - apply query_resume_throw.
  - intros input e w w' Hrun.
    apply await_query_throws in Hrun as (_ & _ & Habs).
    split; [done|]. eexists. by apply query_absent.
  - intros input r w w' key entry Hrun.
    exact (await_query_stores E this input r w w' Hrun key entry).
  - intros uid claims items ip schedule w results w' Hq n0. subst n0.
    set (n0 := length (requests w)).
    destruct (queryBatch_results E this uid claims items ip w)
      as (hits & misses & w1 & results' & _ & Hsh & Hmiss & _ & _ & _
          & _ & _ & Hrun).
    destruct (Hrun schedule) as (w'' & Hq' & Hreq & Hstores).
    rewrite Hq in Hq'. injection Hq' as <- <-.
    simpl in Hreq. destruct Hsh as [Hreq1 Hsh]. rewrite Hreq1 in Hreq.
    assert (forall k m, misses !! k = Some m ->
              requests w' !! (n0 + k) = Some (decision_url this, m.2)) as Hsent.
    { intros k m Hk. rewrite Hreq, lookup_app_r by (unfold n0; lia).
      replace (n0 + k - length (requests w)) with k by (unfold n0; lia).
      by rewrite list_lookup_fmap, Hk. }
    split.
    + intros key entry Hentry.
      destruct (Hstores key) as [Hsame|(entry' & Hentry' & k & m & Hk & Hkey & Hans)].
      * left. simpl in Hsame. rewrite Hentry in Hsame.
        destruct (Hsh key) as [?|<-]; [congruence|done].
      * right. rewrite Hentry in Hentry'. injection Hentry' as <-.
        exists k, (decision_url this), m.2. split_and!; try done. by apply Hsent.
    + intros k url input Hk Hfail.
      rewrite Hreq in Hk. apply batch_request_lookup in Hk as [i Hk].
      rewrite Forall_forall in Hmiss.
      destruct (Hmiss (i, input)) as (item & _ & _ & _ & Habs).
      { apply list_elem_of_lookup. by exists k. }
      simpl in Habs.
      assert (cacheEnabled this = false \/ cache w' !! getCacheKey input = None)
        as Habs'.
      { destruct Habs as [?|Habs]; [by left|right].
        destruct (Hstores (getCacheKey input))
          as [Hsame|(entry' & _ & k' & m & Hk' & Hkey & Hans)].
        - simpl in Hsame. by rewrite Hsame.
        - destruct (Hfail k' _ _ (Hsent _ _ Hk') Hkey) as [e He].
          unfold n0 in He. congruence. }
      split; [done|]. eexists. by apply query_absent.
Qed.

End BatchClaims.

Section NeverThrow.

Context (E : Oracle).

Lemma opaService_cacheEnabled : cacheEnabled (opaService E) = true.
Proof. reflexivity. Qed.

(** C2.  [authorize] and [authorizeBatch] return a result for every token,
    every request and every behaviour of the identity service and of the
    policy endpoint.  When the token is not verified, the result is a deny
    whose decision is the message [Invalid ID token], and nothing is sent.
    When the request of a single check fails, the result is a deny whose
    decision is the message of the error; when it is answered without a
    decision, the deny says so.  In a batch, the item whose request fails
    gets a deny whose decision carries the message of the error as its
    reason. *)
Theorem entry_points_never_throw idToken act res context reqs schedule w :
  let n0 := length (requests w) in
  (exists r w',
     authorize E idToken act res context w = (Ok r, w') /\
     (forall tok e,
        idToken = Some tok -> tok <> EmptyString ->
        verifyIdToken E tok = Throw e ->
        w' = w /\
        r = {| auth_allow := false; auth_decision := inl "Invalid ID token";
               auth_uid := None; auth_claims := [] |}) /\
     (forall url input,
        requests w' = requests w ++ [(url, input)] ->
        (forall e,
           answer_outcome (opa E n0 input) = Throw e ->
           r = {| auth_allow := false;
                  auth_decision := inl (error_message "authorization-error" e);
                  auth_uid := None; auth_claims := [] |}) /\
        (forall d,
           answer_outcome (opa E n0 input) = Ok d ->
           auth_allow r = allow d /\ auth_decision r = inr d)))
  /\
  (exists rs w',
     authorizeBatch E idToken reqs schedule w = (Ok rs, w') /\
     length rs = length reqs /\
     (forall i r, rs !! i = Some r -> auth_index r = i) /\
     (forall tok e,
        idToken = Some tok -> tok <> EmptyString ->
        verifyIdToken E tok = Throw e ->
        w' = w /\
        forall r, r ∈ rs ->
          auth r = {| auth_allow := false; auth_decision := inl "Invalid ID token";
                      auth_uid := None; auth_claims := [] |}) /\
     (forall k url input,
        requests w' !! (n0 + k) = Some (url, input) ->
        exists i req r,
          reqs !! i = Some req /\
          action input = req_action req /\ resource input = req_resource req /\
          rs !! i = Some r /\
          (forall e,
             answer_outcome (opa E (n0 + k) input) = Throw e ->
             auth_allow (auth r) = false /\
             auth_decision (auth r) =
               inr {| allow := false;
                      reason := Some (error_message "OPA query failed" e);
                      other_fields := [] |}) /\
          (forall d,
             answer_outcome (opa E (n0 + k) input) = Ok d ->
             auth_allow (auth r) = allow d /\ auth_decision (auth r) = inr d))).
Proof.
  intros n0. split.
  - destruct (no_token idToken) eqn:Hno.
    + unfold authorize. rewrite Hno. exists (auth_denied "no-token"), w.
      split; [done|]. split.
      * intros tok e -> Htok _. by destruct tok.
      * intros url input Hreq. apply (f_equal length) in Hreq.
        rewrite length_app in Hreq. simpl in Hreq. lia.
    + apply no_token_false in Hno as (tok & -> & Htok).
      rewrite authorize_eq by done.
      destruct (verifyIdToken E tok) as [decoded|e0] eqn:Hverify.
      * cbv zeta.
        destruct (await _ _) as [r w'] eqn:Hrun.
        apply await_query_sent in Hrun as Hsent. simpl in Hsent.
        assert (forall url input,
                  requests w' = requests w ++ [(url, input)] ->
                  r = answer_outcome (opa E n0 input)) as Hout.
        { intros url input Hreq. destruct Hsent as [Hsame|[Hsent ->]].
          - rewrite Hsame in Hreq. apply (f_equal length) in Hreq.
            rewrite length_app in Hreq. simpl in Hreq. lia.
          - rewrite Hsent in Hreq. apply app_inv_head in Hreq.
            by injection Hreq as _ <-. }
        destruct r as [d|e]; eexists _, _; (split; [done|]); split.
        -- intros tok' e' [= <-] _ Hv. congruence.
        -- intros url input Hreq. rewrite <- (Hout _ _ Hreq).
           split; [done|]. by intros d' [= <-].
        -- intros tok' e' [= <-] _ Hv. congruence.
        -- intros url input Hreq. rewrite <- (Hout _ _ Hreq).
           split; [|done]. by intros e' [= <-].
      * eexists _, _. split; [done|]. split.
        -- done.
        -- intros url input Hreq. apply (f_equal length) in Hreq.
           rewrite length_app in Hreq. simpl in Hreq. lia.
  - destruct (authorizeBatch_returns E idToken reqs schedule w)
      as (rs & w' & Hrun & Hlen & Hidx).
    exists rs, w'. split_and!; try done.
    + intros tok e -> Htok Hv. rewrite authorizeBatch_eq, Hv in Hrun by done.
      injection Hrun as <- <-. split; [done|].
      intros r Hr. apply list_elem_of_lookup in Hr as [i Hr].
      by apply all_denied_lookup in Hr as ->.
    + intros k url input Hk.
      destruct (no_token idToken) eqn:Hno.
      { unfold authorizeBatch in Hrun. rewrite Hno in Hrun.
        injection Hrun as _ <-. apply lookup_lt_Some in Hk. unfold n0 in Hk. lia. }
      apply no_token_false in Hno as (tok & -> & Htok).
      rewrite authorizeBatch_eq in Hrun by done.
      destruct (verifyIdToken E tok) as [decoded|e0] eqn:Hverify; last first.
      { injection Hrun as _ <-. apply lookup_lt_Some in Hk. unfold n0 in Hk. lia. }
      cbv zeta in Hrun.
      destruct (queryBatch E (opaService E) (token_uid decoded) (token_claims decoded)
                  (to_items reqs) (context_ip (head reqs ≫= req_context)) schedule w)
        as [[results|e] w''] eqn:Hq; injection Hrun as <- <-; last first.
      { destruct (queryBatch_returns E (opaService E) (token_uid decoded)
                    (token_claims decoded) (to_items reqs)
                    (context_ip (head reqs ≫= req_context)) schedule w)
          as (? & ? & Hq' & _). congruence. }
      destruct (queryBatch_call_result E (opaService E) _ _ _ _ _ _ _ _ _ _ _ Hq Hk)
        as (i & item & Hitem & Hin & Hr).
      unfold to_items in Hitem. rewrite list_lookup_fmap in Hitem.
      destruct (reqs !! i) as [req|] eqn:Hreq; [|done].
      injection Hitem as <-.
      exists i, req,
        (to_auth (token_uid decoded) (token_claims decoded)
           (item_result i (answer_outcome (opa E (n0 + k) input)))).
      split_and!; try done.
      * by rewrite Hin.
      * by rewrite Hin.
      * by rewrite list_lookup_fmap, Hr.
      * by intros e ->.
      * by intros d ->.
Qed.

End NeverThrow.

(** * Instances *)

Section Instances.

Import Examples.

Lemma getCacheKey_field_order_witness :
  getCacheKey check1 = getCacheKey check2 /\
  getCacheKey (read_post type_id [] JNull)
    <> getCacheKey (read_post id_type [("role", JString "admin")] (JString "10.0.0.1")).
Proof.
  apply (getCacheKey_field_order "u1" "read_post" type_id
           [] (post_env JNull) [("role", JString "admin")]
           (post_env (JString "10.0.0.1"))
           "type" (JString "post") "id" (JString "1"));
    first [reflexivity | discriminate].
Defined.

Lemma query_twice_within_ttl_witness :
  exists w2,
    await (query E1 svc check1) w1 = (Ok allow_ok, w2) /\
    requests w2 = requests w1 /\ cache w2 = cache w1 /\
    length (requests w2) <= 1.
Proof.
  destruct (query_twice_within_ttl E1 svc check1 w0 allow_ok w1 eq_refl eq_refl)
    as (entry & Hc & _ & _ & Hhit).
  vm_compute in Hc. injection Hc as <-. apply Hhit. reflexivity.
Defined.

Lemma getCacheKey_ignores_context_witness :
  getCacheKey check1 = getCacheKey check2 /\
  await (query E1 svc check2) w1 = (Ok allow_ok, tick w1).
Proof.
  destruct (getCacheKey_ignores_context E1 svc check1 check2 eq_refl eq_refl eq_refl)
    as [Hkey Hhit].
  split; [exact Hkey|].
  destruct (Hhit w0 allow_ok w1 eq_refl eq_refl) as (entry & Hc & _ & Hlive).
  vm_compute in Hc. injection Hc as <-. apply Hlive. reflexivity.
Defined.

Lemma no_token_denied_witness :
  authorize E1 None "vote_post" [("id", JString "a")] None w0
    = (Ok (auth_denied "no-token"), w0) /\
  exists rs,
    authorizeBatch E1 None [vote "a"; vote "b"] [] w0 = (Ok rs, w0) /\
    length rs = 2 /\
    forall i, i < 2 ->
      rs !! i = Some {| auth := auth_denied "no-token"; auth_index := i |}.
Proof.
  exact (no_token_denied E1 None "vote_post" [("id", JString "a")] None
           [vote "a"; vote "b"] [] w0 (or_introl eq_refl)).
Defined.

Lemma getCachedDecision_fresh_only_witness :
  exists w',
    getCachedDecision E1 svc (getCacheKey (item_input "u2" [] "t" JNull (vote_item "a")))
      w_stale = (Ok None, w') /\
    cache w_stale <> ∅ /\ cache w' = ∅.
Proof.
  destruct (getCachedDecision_fresh_only E1 svc
              (getCacheKey (item_input "u2" [] "t" JNull (vote_item "a"))) w_stale)
    as (r & w' & Hrun & _ & _ & _ & Hexpired & _).
  destruct (Hexpired {| decision := allow_ok; expiry := 31000 |}
              eq_refl eq_refl ltac:(vm_compute; discriminate)) as (-> & _ & Hcache).
  exists w'. split; [exact Hrun|]. split; [vm_compute; discriminate|].
  rewrite Hcache. reflexivity.
Defined.

Lemma queryBatch_calls_and_order_witness :
  exists results w',
    queryBatch E1 svc "u2" [] votes JUndefined [1; 0] w_a = (Ok results, w') /\
    map index results = [0; 1; 2] /\
    length (requests w') = length (requests w_a) + 2.
Proof.
  destruct (queryBatch_calls_and_order E1 svc "u2" [] votes JUndefined w_a)
    as [(hits & misses & w1 & results & Hcheck & _ & _ & Hidx & _ & Hrun) _].
  destruct (Hrun [1; 0]) as (w' & Hq & _ & Hcount).
  exists results, w'. split; [exact Hq|]. split; [exact Hidx|].
  vm_compute in Hcheck. injection Hcheck as <- _ _. exact Hcount.
Defined.

Lemma queryBatch_fault_isolated_witness :
  exists results w' r0 r2,
    queryBatch E1 svc "u2" [] votes JUndefined [2; 0; 1] w0 = (Ok results, w') /\
    length results = 3 /\
    results !! 0 = Some r0 /\ batch_allow r0 = true /\ batch_decision r0 = allow_ok /\
    results !! 2 = Some r2 /\ batch_allow r2 = false /\
    reason (batch_decision r2) = Some "fetch failed".
Proof.
  destruct (queryBatch_fault_isolated E1 svc "u2" [] votes JUndefined [2; 0; 1] w0)
    as (results & w' & Hq & Hlen & Hitems & _).
  destruct (Hitems 0 (vote_item "a") eq_refl)
    as (r0 & Hr0 & _ & [(_ & entry & Hentry & _)|(k0 & _ & _ & Hok)]);
    [discriminate Hentry|].
  destruct (Hitems 2 (vote_item "c") eq_refl)
    as (r2 & Hr2 & _ & [(_ & entry & Hentry & _)|(k2 & _ & Hfail & _)]);
    [discriminate Hentry|].
  destruct (Hok allow_ok eq_refl) as [Hallow0 Hdec0].
  destruct (Hfail (JsError "fetch failed") eq_refl) as [Hallow2 Hdec2].
  exists results, w', r0, r2. rewrite Hdec2. by split_and!.
Defined.

Lemma failed_calls_not_cached_witness :
  exists results w' resume,
    queryBatch E1 svc "u2" [] votes JUndefined [2; 0; 1] w0 = (Ok results, w') /\
    cache w' !! getCacheKey (item_input "u2" [] "t" JNull (vote_item "c")) = None /\
    query E1 svc (item_input "u2" [] "t" JNull (vote_item "c")) w'
      = (Pending resume,
         add_requests [(decision_url svc, item_input "u2" [] "t" JNull (vote_item "c"))] w').
Proof.
  destruct (failed_calls_not_cached E1 svc) as (_ & _ & _ & Hbatch).
  destruct (queryBatch E1 svc "u2" [] votes JUndefined [2; 0; 1] w0)
    as [[results|e] w'] eqn:Hq; [|vm_compute in Hq; discriminate Hq].
  destruct (Hbatch "u2" [] votes JUndefined [2; 0; 1] w0 results w' Hq) as [_ Hfailed].
  assert (requests w' =
            map (fun item => (decision_url svc,
                   item_input "u2" [] (toISOString E1 (clock E1 0)) JUndefined item))
                votes) as Hsent.
  { vm_compute in Hq. injection Hq as _ <-. reflexivity. }
  destruct (Hfailed 2 (decision_url svc)
              (item_input "u2" [] (toISOString E1 (clock E1 0)) JUndefined
                 (vote_item "c")))
    as [Habs _].
  { by rewrite Hsent. }
  { intros k' url' input' Hk' Hkey. rewrite Hsent in Hk'.
    destruct k' as [|[|[|k']]]; simpl in Hk';
      [injection Hk' as _ <-; vm_compute in Hkey; discriminate Hkey
      |injection Hk' as _ <-; vm_compute in Hkey; discriminate Hkey
      |injection Hk' as _ <-; by eexists
      |done]. }
  destruct Habs as [Hoff|Habs]; [discriminate Hoff|].
  assert (cache w' !! getCacheKey (item_input "u2" [] "t" JNull (vote_item "c")) = None)
    as Habs' by exact Habs.
  eexists results, w', _. split; [done|]. split; [exact Habs'|].
  apply query_absent. by right.
Defined.

Lemma entry_points_never_throw_witness :
  exists r w' rs w'',
    authorize E1 (Some "bad") "vote_post" [("id", JString "a")] None w0 = (Ok r, w') /\
    r = auth_denied "Invalid ID token" /\ w' = w0 /\
    authorizeBatch E1 (Some "bad") [vote "a"; vote "c"] [] w0 = (Ok rs, w'') /\
    length rs = 2 /\ w'' = w0.
Proof.
  destruct (entry_points_never_throw E1 (Some "bad") "vote_post"
              [("id", JString "a")] None [vote "a"; vote "c"] [] w0)
    as [(r & w' & Hrun & Hverify & _) (rs & w'' & Hbatch & Hlen & _ & Hverify' & _)].
  destruct (Hverify "bad" (JsError "bad signature") eq_refl
              ltac:(discriminate) eq_refl) as [-> ->].
  destruct (Hverify' "bad" (JsError "bad signature") eq_refl
              ltac:(discriminate) eq_refl) as [-> _].
  by exists (auth_denied "Invalid ID token"), w0, rs, w0.
Defined.

Lemma authorizeAll_authorizeAny_reduce_witness :
  exists results w',
    authorizeAll E1 (Some "good") [vote "a"; vote "b"] [] w0 = (Ok (false, results), w') /\
    authorizeAny E1 (Some "good") [vote "a"; vote "b"] [] w0 = (Ok (true, results), w').
Proof.
  destruct (authorizeAll_authorizeAny_reduce E1 (Some "good") [vote "a"; vote "b"] [] w0)
    as (results & w' & allAllowed & anyAllowed & Hbatch & Hall & Hany & _).
  exists results, w'. rewrite Hall, Hany.
  vm_compute in Hall. injection Hall as <- _ _.
  vm_compute in Hany. by injection Hany as <- _ _.
Defined.

(** The batch of the three votes: [a] allowed, [b] denied by the policy,
    [c] denied because its call failed, in this order, the call for [c]
    completing first. *)
Example vote_batch :
  map (fun r => (index r, batch_allow r, reason (batch_decision r)))
      (default [] (match (queryBatch E1 svc "u2" []
                            [vote_item "a"; vote_item "b"; vote_item "c"]
                            JUndefined [2; 0; 1] w0).1 with
                   | Ok rs => Some rs
                   | Throw _ => None
                   end))
  = [ (0, true, Some "ok"); (1, false, Some "denied");
      (2, false, Some "fetch failed") ].
Proof. reflexivity. Qed.

End Instances.

(** * Further properties of [OpaService] *)

Section ServiceExtras.

Context (E : Oracle) (this : OpaService).

(** After [clearCache] no decision is served from the cache: every lookup
    misses and the next query, whatever its input, goes to the endpoint.
    Clearing sends nothing itself. *)
Theorem clearCache_forces_requery input w :
  exists w0,
    clearCache w = (Ok tt, w0) /\
    cache w0 = ∅ /\ requests w0 = requests w /\
    (forall key, getCachedDecision E this key w0 = (Ok None, w0)) /\
    query E this input w0
      = (Pending (query_resume E this (getCacheKey input)
                    (opa E (length (requests w)) input)),
         add_requests [(decision_url this, input)] w0).
Proof.
  eexists. split; [reflexivity|]. simpl. split_and!; try done.
  - intros key. apply getCachedDecision_absent. right. apply lookup_empty.
  - rewrite query_absent; [done|]. right. apply lookup_empty.
Qed.

(** A decision that was stored is served again for as long as its entry is
    live, and the entry is the last one stored under the key: storing [d1]
    and then [d2] under a key and looking the key up within one TTL of the
    second store returns [d2]; other keys keep their entries. *)
Theorem cacheDecision_then_lookup key d1 d2 w :
  cacheEnabled this = true ->
  let w1 := (cacheDecision E this key d1 w).2 in
  let w2 := (cacheDecision E this key d2 w1).2 in
  (clock E (clock_reads w2) < clock E (clock_reads w1) + cacheTtlMs this)%Z ->
  getCachedDecision E this key w2 = (Ok (Some d2), tick w2) /\
  forall k, k <> key -> cache w2 !! k = cache w !! k.
Proof.
  intros Hen w1 w2 Hlive. subst w2 w1.
  rewrite !cacheDecision_eq, Hen in *. simpl in *.
  split.
  - rewrite getCachedDecision_eq, Hen. simpl. rewrite lookup_insert_eq. simpl.
    by apply Z.ltb_lt in Hlive as ->.
  - intros k Hne. by rewrite !lookup_insert_ne.
Qed.

(** With a TTL of zero or less and a clock that does not run backwards, a
    stored decision is never served: the lookup that follows the store
    returns nothing and deletes the entry. *)
Theorem zero_ttl_never_serves key d w :
  cacheEnabled this = true ->
  (cacheTtlMs this <= 0)%Z ->
  (forall n m, n <= m -> (clock E n <= clock E m)%Z) ->
  let w1 := (cacheDecision E this key d w).2 in
  exists w2,
    getCachedDecision E this key w1 = (Ok None, w2) /\
    cache w2 !! key = None.
Proof.
  intros Hen Httl Hmono w1. subst w1. rewrite cacheDecision_eq, Hen. simpl.
  rewrite getCachedDecision_eq, Hen. simpl. rewrite lookup_insert_eq. simpl.
  specialize (Hmono (clock_reads w) (S (clock_reads w)) ltac:(lia)).
  destruct (Z.ltb_spec (clock E (S (clock_reads w)))
              (clock E (clock_reads w) + cacheTtlMs this)); [lia|].
  eexists. split; [done|]. simpl. apply lookup_delete_eq.
Qed.

(** A query made when the entry of its key has expired goes to the endpoint
    again.  The expired entry is gone afterwards: replaced by the new
    decision, with a new expiry, when the call succeeds, and deleted when
    the call fails. *)
Theorem query_after_expiry input entry w :
  cacheEnabled this = true ->
  cache w !! getCacheKey input = Some entry ->
  (expiry entry <= clock E (clock_reads w))%Z ->
  exists w',
    await (query E this input) w
      = (answer_outcome (opa E (length (requests w)) input), w') /\
    requests w' = requests w ++ [(decision_url this, input)] /\
    (forall d, answer_outcome (opa E (length (requests w)) input) = Ok d ->
       cache w' !! getCacheKey input
         = Some {| decision := d;
                   expiry := (clock E (S (clock_reads w)) + cacheTtlMs this)%Z |}) /\
    (forall e, answer_outcome (opa E (length (requests w)) input) = Throw e ->
       cache w' !! getCacheKey input = None).
Proof.
  intros Hen Hentry Hexp.
  rewrite await_query_eq, getCachedDecision_eq, Hen, Hentry.
  apply Z.ltb_ge in Hexp as ->. rewrite query_resume_eq. simpl.
  destruct (answer_outcome _) as [d|e] eqn:Hans.
  - rewrite cacheDecision_eq, Hen. simpl. eexists. split_and!; try done.
    + intros d' [= <-]. simpl. by rewrite lookup_insert_eq.
  - eexists. split_and!; try done.
    intros e' _. simpl. apply lookup_delete_eq.
Qed.

End ServiceExtras.

Section DisabledCache.

Context (E : Oracle) (this : OpaService).

#[global] Instance same_store_preorder : PreOrder same_store.
Proof.
  split.
  - by intros w.
  - intros w1 w2 w3 [Hc1 Hr1] [Hc2 Hr2]. split; congruence.
Qed.

Lemma item_resume_inert i key answer :
  cacheEnabled this = false ->
  yields same_store (item_resume E this i key answer)
    (item_result i (answer_outcome answer)).
Proof.
  intros Hoff w. unfold item_resume, try_catch, bind. rewrite query_resume_eq.
  destruct (answer_outcome answer) as [d|e]; simpl; [|done].
  by rewrite cacheDecision_eq, Hoff.
Qed.

Lemma fresh_results_inert n0 misses :
  cacheEnabled this = false ->
  Forall2 (slot_ok same_store)
    (imap (fun k m =>
             Pending (item_resume E this m.1 (getCacheKey m.2)
                        (opa E (n0 + k) m.2))) misses)
    (fresh_results E n0 misses).
Proof.
  intros Hoff. unfold fresh_results.
  apply Forall2_same_length_lookup_2; [by rewrite !length_imap|].
  intros k p v. rewrite !list_lookup_imap.
  destruct (misses !! k) as [m|] eqn:Hk; [|done]. simpl.
  intros [= <-] [= <-]. right. eexists. split; [done|].
  by apply item_resume_inert.
Qed.

(** With the cache switched off the service neither reads nor writes it: a
    query always sends its request and returns, or throws, what the answer
    comes to, and a batch of [N] items sends [N] requests, one per item in
    the order of the items; the cache is left as it was. *)
Theorem cache_disabled_inert :
  cacheEnabled this = false ->
  (forall input w,
     await (query E this input) w
       = (answer_outcome (opa E (length (requests w)) input),
          add_requests [(decision_url this, input)] w)) /\
  (forall uid claims items ip schedule w,
     exists results w',
       queryBatch E this uid claims items ip schedule w = (Ok results, w') /\
       cache w' = cache w /\
       requests w'
         = requests w
           ++ batch_inputs this uid claims (toISOString E (clock E (clock_reads w)))
                ip items).
Proof.
  intros Hoff. split.
  - intros input w. rewrite await_query_eq, getCachedDecision_absent by by left.
    rewrite query_resume_eq. destruct (answer_outcome _); [|done].
    by rewrite cacheDecision_eq, Hoff.
  - intros uid claims items ip schedule w.
    unfold queryBatch. unfold bind at 1. unfold Date_now. cbv beta iota.
    fold (tick w). unfold bind at 1. rewrite check_cache_disabled by done.
    cbv beta iota. cbn [fst snd app].
    set (misses := imap _ items).
    assert (map (fun m : nat * OpaInput => (decision_url this, m.2)) misses
            = batch_inputs this uid claims (toISOString E (clock E (clock_reads w)))
                ip items) as Hsent.
    { unfold misses, batch_inputs. apply list_eq. intros k.
      rewrite !list_lookup_fmap, list_lookup_imap. by destruct (items !! k). }
    destruct (length misses =? 0)%nat eqn:Hlen.
    + apply Nat.eqb_eq in Hlen. unfold misses in Hlen. rewrite length_imap in Hlen.
      destruct items; [|done]. eexists _, _. split; [done|].
      unfold batch_inputs. simpl. by rewrite app_nil_r.
    + unfold bind at 1. rewrite start_all_query_item; last first.
      { apply Forall_forall. intros m _. by left. }
      unfold bind at 1.
      destruct (Promise_all_ok same_store _ _ schedule
                  (add_requests
                     (map (fun m : nat * OpaInput => (decision_url this, m.2)) misses)
                     (tick w))
                  (fresh_results_inert (length (requests (tick w))) misses Hoff))
        as (w' & -> & Hc & Hr).
      unfold ret. eexists _, w'. split; [done|]. rewrite Hc, Hr. simpl.
      by rewrite Hsent.
Qed.

End DisabledCache.

Section QuerySource.

Context (E : Oracle) (this : OpaService).

(** Where the decision of a query that returns comes from. *)
Lemma await_query_source input w d w' :
  await (query E this input) w = (Ok d, w') ->
  (exists entry,
     cache w !! getCacheKey input = Some entry /\ decision entry = d /\
     requests w' = requests w) \/
  (answer_outcome (opa E (length (requests w)) input) = Ok d /\
   requests w' = requests w ++ [(decision_url this, input)]).
Proof.
  intros Hq. rewrite await_query_eq in Hq.
  destruct (getCachedDecision E this (getCacheKey input) w)
    as [[[d'|]|e'] w1] eqn:Hlook.
  - injection Hq as -> ->.
    apply getCachedDecision_hit in Hlook as (-> & entry & Hentry & ->).
    left. by exists entry.
  - apply getCachedDecision_miss in Hlook as [[Hreq _] _].
    rewrite query_resume_eq in Hq. simpl in Hq, Hreq. rewrite Hreq in Hq.
    destruct (answer_outcome _) as [d'|e'] eqn:Hans; [|done].
    injection Hq as -> <-. right. split; [done|].
    rewrite cacheDecision_eq. destruct (cacheEnabled this); simpl; by rewrite Hreq.
  - destruct (getCachedDecision_ok E this (getCacheKey input) w)
      as (? & ? & ?). congruence.
Qed.

End QuerySource.

Section AllowedExtras.

Context (E : Oracle) (this : OpaService).


End AllowedExtras.

(** * The request layer: [authorize.ts] and [base.ts] *)

(** * Properties of the request layer *)

(** ** Strings *)

Section StringFacts.

Lemma trimEnd_cons c s :
  trimEnd (String c s) =
    match trimEnd s with
    | EmptyString => if is_white_space c then EmptyString else String c EmptyString
    | t => String c t
    end.
Proof. reflexivity. Qed.

Lemma trimEnd_idempotent s : trimEnd (trimEnd s) = trimEnd s.
Proof.
  induction s as [|c s IH]; [done|]. rewrite trimEnd_cons.
  destruct (trimEnd s) as [|d t] eqn:Ht.
  - destruct (is_white_space c) eqn:Hc; [done|]. rewrite trimEnd_cons. simpl.
    by rewrite Hc.
  - rewrite trimEnd_cons. by rewrite IH.
Qed.


Lemma trimStart_starts s : starts_white (trimStart s) = false.
Proof.
  induction s as [|c s IH]; [done|]. simpl.
  destruct (is_white_space c) eqn:Hc; [done|]. simpl. done.
Qed.

Lemma trimStart_id s : starts_white s = false -> trimStart s = s.
Proof. destruct s as [|c s]; [done|]. simpl. by intros ->. Qed.

Lemma trimEnd_starts s : starts_white s = false -> starts_white (trimEnd s) = false.
Proof.
  destruct s as [|c s]; [done|]. rewrite trimEnd_cons. simpl. intros Hc.
  destruct (trimEnd s); simpl; by rewrite ?Hc.
Qed.

Lemma trim_idempotent s : trim (trim s) = trim s.
Proof.
  unfold trim. rewrite (trimStart_id (trimEnd (trimStart s))).
  - apply trimEnd_idempotent.
  - apply trimEnd_starts, trimStart_starts.
Qed.

Lemma trimStart_forallb f s :
  string_forallb f s = true -> string_forallb f (trimStart s) = true.
Proof.
  induction s as [|c s IH]; [done|]. simpl.
  destruct (is_white_space c); [|done].
  intros [_ ?]%andb_prop. auto.
Qed.

Lemma trimEnd_forallb f s :
  string_forallb f s = true -> string_forallb f (trimEnd s) = true.
Proof.
  induction s as [|c s IH]; [done|]. rewrite trimEnd_cons. cbn [string_forallb].
  intros [Hc Hs]%andb_prop. specialize (IH Hs).
  destruct (trimEnd s) as [|d t].
  - destruct (is_white_space c); [done|]. simpl. by rewrite Hc.
  - cbn [string_forallb] in *. by rewrite Hc, IH.
Qed.

Lemma trim_forallb f s :
  string_forallb f s = true -> string_forallb f (trim s) = true.
Proof. intros. by apply trimEnd_forallb, trimStart_forallb. Qed.

Lemma split_cons sep s : exists first rest, split sep s = first :: rest.
Proof.
  induction s as [|c s (first & rest & IH)]; [by eexists _, _|]. simpl.
  destruct (Ascii.eqb c sep); [by eexists _, _|]. rewrite IH. by eexists _, _.
Qed.

Lemma split_first_lacks sep s first rest :
  split sep s = first :: rest -> lacks sep first = true.
Proof.
  revert first rest. induction s as [|c s IH]; intros first rest; simpl.
  - by intros [= <- <-].
  - destruct (Ascii.eqb c sep) eqn:Hc; [by intros [= <- <-]|].
    destruct (split_cons sep s) as (f & r & Hs). rewrite Hs.
    intros [= <- <-]. unfold lacks. simpl. rewrite Hc. simpl.
    by apply (IH f r).
Qed.

Lemma truthy_Some s r : truthy s = Some r -> s = Some r /\ r <> EmptyString.
Proof. destruct s as [[|c t]|]; simpl; try done. by intros [= <-]. Qed.

Lemma truthy_None s : truthy s = None -> s = None \/ s = Some EmptyString.
Proof. destruct s as [[|c t]|]; simpl; try done; auto. Qed.

Lemma getClientIp_eq (headers : Headers) :
  getClientIp headers =
    match headers "x-forwarded-for" with
    | Some value =>
        match split "," value with
        | first :: _ =>
            match trim first with
            | EmptyString => truthy (headers "x-real-ip")
            | ip => Some ip
            end
        | [] => truthy (headers "x-real-ip")
        end
    | None => truthy (headers "x-real-ip")
    end.
Proof.
  unfold getClientIp. destruct (headers "x-forwarded-for") as [value|]; [|done].
  simpl. destruct (split "," value) as [|first rest]; [done|]. simpl.
  by destruct (trim first).
Qed.

(** The address that [getClientIp] returns is never the empty string.  It
    is the first entry of [x-forwarded-for], trimmed: then it has no comma
    and no white space at either end.  Or, when that header is missing or
    its first entry is blank, it is [x-real-ip] as it stands; later entries
    of [x-forwarded-for] are never used. *)
Theorem getClientIp_result (headers : Headers) ip :
  getClientIp headers = Some ip ->
  ip <> EmptyString /\
  ((exists value first rest,
      headers "x-forwarded-for" = Some value /\
      split "," value = first :: rest /\
      ip = trim first /\ trim ip = ip /\ lacks "," ip = true)
   \/
   (headers "x-real-ip" = Some ip /\
    (headers "x-forwarded-for" = None \/
     exists value first rest,
       headers "x-forwarded-for" = Some value /\
       split "," value = first :: rest /\ trim first = EmptyString))).
Proof.
  rewrite getClientIp_eq.
  destruct (headers "x-forwarded-for") as [value|] eqn:Hxff.
  - destruct (split_cons "," value) as (first & rest & Hsplit). rewrite Hsplit.
    destruct (trim first) as [|c t] eqn:Htrim.
    + intros Hreal. apply truthy_Some in Hreal as [Hreal Hne].
      split; [done|]. right. split; [done|]. right.
      by exists value, first, rest.
    + intros [= <-]. split; [done|]. left. exists value, first, rest.
      split_and!; try done.
      * rewrite <- Htrim. apply trim_idempotent.
      * rewrite <- Htrim. apply trim_forallb. by eapply split_first_lacks.
  - intros Hreal. apply truthy_Some in Hreal as [Hreal Hne].
    split; [done|]. right. split; [done|]. by left.
Qed.

(** [getClientIp] finds no address exactly when [x-forwarded-for] is missing
    or starts with a blank entry, and [x-real-ip] is missing or empty. *)
Theorem getClientIp_none (headers : Headers) :
  getClientIp headers = None <->
    (headers "x-forwarded-for" = None \/
     exists value first rest,
       headers "x-forwarded-for" = Some value /\
       split "," value = first :: rest /\ trim first = EmptyString) /\
    (headers "x-real-ip" = None \/ headers "x-real-ip" = Some EmptyString).
Proof.
  rewrite getClientIp_eq.
  destruct (headers "x-forwarded-for") as [value|] eqn:Hxff.
  - destruct (split_cons "," value) as (first & rest & Hsplit). rewrite Hsplit.
    destruct (trim first) as [|c t] eqn:Htrim.
    + split.
      * intros Hreal%truthy_None. split; [|done]. right. by exists value, first, rest.
      * intros [_ [-> | ->]]; done.
    + split; [done|]. intros [[?|(v & f & r & [= <-] & Hs & Ht)] _]; [done|].
      rewrite Hsplit in Hs. injection Hs as <- <-. congruence.
  - split.
    + intros Hreal%truthy_None. split; [by left|done].
    + intros [_ [-> | ->]]; done.
Qed.

Lemma after_prefix_spec p s r : after_prefix p s = Some r <-> s = p +:+ r.
Proof.
  revert s. induction p as [|a p IH]; intros s; simpl.
  - split; [by intros [= ->]|by intros ->].
  - destruct s as [|b s].
    + split; [done|]. intros H. discriminate H.
    + destruct (Ascii.eqb_spec a b) as [->|Hne].
      * rewrite IH. split; [by intros ->|]. intros H.
        change (String b p +:+ r) with (String b (p +:+ r)) in H. by injection H.
      * split; [done|]. intros H.
        change (String a p +:+ r) with (String a (p +:+ r)) in H. by injection H.
Qed.

End StringFacts.

Section TokenFacts.

Lemma extractToken_filled req tok : extractToken req = Some tok -> tok <> EmptyString.
Proof.
  unfold extractToken, match_bearer.
  destruct (after_prefix "Bearer " _) as [[|c rest]|]; try done.
  destruct (string_forallb _ _); [|done]. by intros [= <-].
Qed.

(** [extractToken] returns a token exactly when the [authorization] header
    is the word [Bearer], one space and the token, the token being neither
    empty nor broken by a line terminator; the scheme is case-sensitive and
    the token is taken as it stands, spaces included. *)
Theorem extractToken_bearer req tok :
  extractToken req = Some tok <->
    req_header req "authorization" = Some ("Bearer " +:+ tok) /\
    tok <> EmptyString /\ no_line_terminator tok = true.
Proof.
  unfold extractToken, match_bearer. split.
  - destruct (after_prefix "Bearer " _) as [[|c rest]|] eqn:Hpre; try done.
    apply after_prefix_spec in Hpre.
    destruct (string_forallb _ _) eqn:Hline; [|done]. intros [= <-].
    split_and!; try done.
    destruct (req_header req "authorization") as [[|a h]|]; try done.
    simpl in Hpre. by rewrite Hpre.
  - intros (Hh & Hne & Hline). rewrite Hh. simpl.
    destruct tok as [|c rest]; [done|].
    unfold no_line_terminator in Hline. simpl in *. by rewrite Hline.
Qed.

Lemma extractToken_not_empty req tok :
  extractToken req = Some tok -> no_token (Some tok) = false.
Proof. intros Hne%extractToken_filled. by destruct tok. Qed.

Lemma extractToken_truthy req tok :
  extractToken req = Some tok -> default EmptyString (truthy (Some tok)) = tok.
Proof. intros Hne%extractToken_filled. by destruct tok. Qed.

End TokenFacts.

Section ParamsFacts.

Lemma collection_not_api previous :
  includes collections previous = true ->
  includes ["api"; "v1"] previous = false /\ String.eqb previous "api" = false.
Proof.
  unfold includes, collections. simpl. rewrite !orb_false_r.
  intros H. repeat (apply orb_prop in H as [H|H]);
    apply String.eqb_eq in H as ->; done.
Qed.

Lemma extractParams_step_eq pre previous part rest found :
  extractParams_step (pre ++ previous :: part :: rest) (id_params found)
    (S (length pre))
  = id_params (if includes collections previous && negb (includes knownActions part)
               then Some part else found).
Proof.
  unfold extractParams_step.
  replace ((pre ++ previous :: part :: rest) !! S (length pre)) with (Some part);
    last first.
  { rewrite lookup_app_r by lia. by replace (S (length pre) - length pre) with 1 by lia. }
  replace ((pre ++ previous :: part :: rest) !! (S (length pre) - 1))
    with (Some previous); last first.
  { rewrite lookup_app_r by lia. by replace (S (length pre) - 1 - length pre) with 0 by lia. }
  simpl default. simpl (0 <? _)%nat.
  destruct (includes collections previous) eqn:Hcol.
  - destruct (collection_not_api _ Hcol) as [-> ->]. cbn [andb negb].
    rewrite andb_true_r. by destruct (includes knownActions part).
  - cbn [andb]. destruct (includes ["api"; "v1"] previous); cbn [andb negb]; [done|].
    by destruct (negb (includes knownActions part) && negb (String.eqb previous "api")).
Qed.

Lemma extractParams_loop rest :
  forall pre previous found,
    fold_left (extractParams_step (pre ++ previous :: rest))
      (seq (S (length pre)) (length rest)) (id_params found)
    = id_params (last_id previous rest found).
Proof.
  induction rest as [|part rest IH]; intros pre previous found; [done|].
  cbn [length seq fold_left last_id]. rewrite extractParams_step_eq.
  specialize (IH (pre ++ [previous]) part
                (if includes collections previous && negb (includes knownActions part)
                 then Some part else found)).
  rewrite <- app_assoc, length_app in IH. simpl in IH.
  by rewrite Nat.add_1_r in IH.
Qed.

Lemma extractParams_parts parts :
  fold_left (extractParams_step parts) (seq 0 (length parts)) [] =
    match parts with
    | [] => []
    | first :: rest => id_params (last_id first rest None)
    end.
Proof.
  destruct parts as [|first rest]; [done|].
  cbn [length seq fold_left].
  replace (extractParams_step (first :: rest) [] 0) with (id_params None); last first.
  { unfold extractParams_step. by destruct ((first :: rest) !! 0). }
  apply (extractParams_loop rest [] first None).
Qed.

(** [extractParams] keeps one thing, the [id]: the last segment of the path
    that directly follows the name of a collection and is not the name of an
    action.  Its two tests against [api] and [v1] change nothing. *)
Theorem extractParams_last_id pathname :
  extractParams pathname =
    match pathParts_of pathname with
    | [] => []
    | first :: rest => id_params (last_id first rest None)
    end.
Proof. apply extractParams_parts. Qed.

Lemma split_lacks sep x : lacks sep x = true -> split sep x = [x].
Proof.
  unfold lacks. induction x as [|c x IH]; [done|]. cbn [string_forallb split].
  intros [Hc Hx]%andb_prop. apply negb_true_iff in Hc. rewrite Hc, IH; done.
Qed.

Lemma split_sep sep x y :
  lacks sep x = true -> split sep (x +:+ String sep y) = x :: split sep y.
Proof.
  unfold lacks. induction x as [|c x IH].
  - intros _. rewrite JSONFacts.append_nil. cbn [split]. by rewrite Ascii.eqb_refl.
  - cbn [string_forallb]. intros [Hc Hx]%andb_prop. apply negb_true_iff in Hc.
    rewrite JSONFacts.append_cons. cbn [split]. rewrite Hc, IH; done.
Qed.

Lemma member_plain l x :
  Forall (fun s => s <> EmptyString /\ lacks "/" s = true) l ->
  includes l x = true -> x <> EmptyString /\ lacks "/" x = true.
Proof.
  intros Hall Hin. unfold includes in Hin. apply existsb_exists in Hin as (s & Hs & Heq).
  apply String.eqb_eq in Heq as ->. rewrite Forall_forall in Hall.
  apply Hall. by apply list_elem_of_In.
Qed.

Lemma collections_plain x :
  includes collections x = true -> x <> EmptyString /\ lacks "/" x = true.
Proof. apply member_plain. unfold collections. by repeat constructor. Qed.

Lemma knownActions_plain x :
  includes knownActions x = true -> x <> EmptyString /\ lacks "/" x = true.
Proof. apply member_plain. unfold knownActions. by repeat constructor. Qed.

Lemma append_nil_r (x : string) : x +:+ EmptyString = x.
Proof.
  induction x as [|c x IH]; [done|]. rewrite JSONFacts.append_cons. by rewrite IH.
Qed.

Lemma slash_append (path : string) : "/" +:+ path = String "/" path.
Proof. reflexivity. Qed.

(** The segments of a path written with single slashes. *)
Lemma pathParts_segments (segments : list string) :
  Forall (fun s => s <> EmptyString /\ lacks "/" s = true) segments ->
  pathParts_of (foldr (fun s path => "/" +:+ s +:+ path) EmptyString segments)
  = segments.
Proof.
  unfold pathParts_of. induction 1 as [|x l [Hne Hx] _ IH]; [done|].
  cbn [foldr]. rewrite slash_append. cbn [split]. rewrite Ascii.eqb_refl.
  rewrite filter_cons_False by (intros H; by apply H).
  destruct l as [|y l].
  - cbn [foldr]. rewrite append_nil_r, split_lacks by done.
    by rewrite filter_cons_True.
  - cbn [foldr] in *. rewrite slash_append in *.
    rewrite split_sep by done. rewrite filter_cons_True by done.
    f_equal. cbn [split] in IH. rewrite Ascii.eqb_refl in IH.
    by rewrite filter_cons_False in IH by (intros H; by apply H).
Qed.

Lemma url_segment_plain x :
  url_segment x = true -> x <> EmptyString /\ lacks "/" x = true.
Proof.
  destruct x as [|c x]; [done|]. unfold url_segment.
  intros [[Hall _]%andb_prop _]%andb_prop. split; [done|].
  unfold lacks. generalize dependent (String c x). clear c x.
  intros s. induction s as [|c s IH]; [done|]. cbn [string_forallb].
  intros [Hc Hs]%andb_prop. rewrite IH by done. rewrite andb_true_r.
  destruct (Ascii.eqb_spec c "/") as [->|]; [|done]. by vm_compute in Hc.
Qed.

(** The routes of the API, by shape, for path segments that the URL of a
    request holds as they are written (unreserved characters, no dot
    segment).  After a collection, a segment that is not the name of an
    action is the [id], also when an action follows it; a segment that is
    the name of an action is not taken as [id]; and of two resources in one
    path the inner one gives the [id]. *)
Theorem extractParams_routes c x :
  includes collections c = true ->
  url_segment x = true ->
  (includes knownActions x = true ->
     extractParams ("/api/" +:+ c +:+ "/" +:+ x) = []) /\
  (includes knownActions x = false ->
     extractParams ("/api/" +:+ c +:+ "/" +:+ x) = [("id", x)] /\
     (forall a, includes knownActions a = true ->
        extractParams ("/api/" +:+ c +:+ "/" +:+ x +:+ "/" +:+ a) = [("id", x)]) /\
     (forall c' y, includes collections c' = true -> url_segment y = true ->
        includes knownActions y = false ->
        extractParams ("/api/" +:+ c +:+ "/" +:+ x +:+ "/" +:+ c' +:+ "/" +:+ y)
          = [("id", y)])).
Proof.
  intros Hc [Hne Hx]%url_segment_plain.
  destruct (collections_plain _ Hc) as [Hcne Hcx].
  assert (forall segments,
            Forall (fun s => s <> EmptyString /\ lacks "/" s = true) segments ->
            extractParams (foldr (fun s path => "/" +:+ s +:+ path) EmptyString
                             ("api" :: c :: x :: segments))
            = id_params (last_id "api" (c :: x :: segments) None)) as Hrun.
  { intros segments Hall. unfold extractParams.
    rewrite extractParams_parts, pathParts_segments; [done|].
    by repeat constructor. }
  assert ("/api/" +:+ c +:+ "/" +:+ x
          = foldr (fun s path => "/" +:+ s +:+ path) EmptyString ["api"; c; x]) as Hpath.
  { cbn [foldr]. by rewrite append_nil_r. }
  split; [|intros Hknown; split_and!].
  - intros Hknown. rewrite Hpath, (Hrun []) by done.
    cbn [last_id]. by rewrite Hc, Hknown.
  - rewrite Hpath, (Hrun []) by done. cbn [last_id]. by rewrite Hc, Hknown.
  - intros a Ha. destruct (knownActions_plain _ Ha) as [Hane Hax].
    assert ("/api/" +:+ c +:+ "/" +:+ x +:+ "/" +:+ a
            = foldr (fun s path => "/" +:+ s +:+ path) EmptyString ["api"; c; x; a])
      as -> by (cbn [foldr]; by rewrite append_nil_r).
    rewrite (Hrun [a]) by by repeat constructor.
    cbn [last_id]. rewrite Hc, Hknown, Ha. cbn [andb negb].
    by rewrite andb_false_r.
  - intros c' y Hc' [Hyne Hy]%url_segment_plain Hyk.
    destruct (collections_plain _ Hc') as [Hc'ne Hc'x].
    assert ("/api/" +:+ c +:+ "/" +:+ x +:+ "/" +:+ c' +:+ "/" +:+ y
            = foldr (fun s path => "/" +:+ s +:+ path) EmptyString
                ["api"; c; x; c'; y])
      as -> by (cbn [foldr]; by rewrite append_nil_r).
    rewrite (Hrun [c'; y]) by by repeat constructor.
    cbn [last_id]. by rewrite Hc', Hyk.
Qed.

End ParamsFacts.

Section RequestFacts.

Context (E : Oracle).

(** A result with [allow] set is the result of a verified token and of a
    decision that allows. *)
Lemma authorize_allow_shape idToken act res context w r w' :
  authorize E idToken act res context w = (Ok r, w') ->
  auth_allow r = true ->
  exists tok decoded d,
    idToken = Some tok /\ tok <> EmptyString /\
    verifyIdToken E tok = Ok decoded /\
    r = auth_checked true d (token_uid decoded) (token_claims decoded) /\
    allow d = true /\
    await (query E (opaService E)
             (single_input E (token_uid decoded) (token_claims decoded) act res
                (context_ip context) (clock E (clock_reads w)))) (tick w)
      = (Ok d, w').
Proof.
  intros Hrun Hallow.
  destruct (no_token idToken) eqn:Hno.
  { unfold authorize in Hrun. rewrite Hno in Hrun. injection Hrun as <- _. done. }
  apply no_token_false in Hno as (tok & -> & Htok).
  rewrite authorize_eq in Hrun by done.
  destruct (verifyIdToken E tok) as [decoded|e] eqn:Hverify;
    [|injection Hrun as <- _; done].
  cbv zeta in Hrun.
  destruct (await _ _) as [[d|e] w1] eqn:Hq; injection Hrun as <- <-; [|done].
  simpl in Hallow. exists tok, decoded, d. rewrite Hallow. by split_and!.
Qed.

Lemma parseBody_world req schema w : (parseBody req schema w).2 = w.
Proof.
  unfold parseBody. destruct (req_header req "content-type") as [ct|]; [|done].
  destruct (negb _); [done|]. unfold h_try, h_bind.
  destruct (req_json req) as [body|[e|m|e]]; try done.
  destruct schema as [safeParse|]; [|done]. by destruct (safeParse body).
Qed.

Lemma body_stage_world req options w : (body_stage req options w).2 = w.
Proof. unfold body_stage. destruct (includes _ _); [apply parseBody_world|done]. Qed.

Lemma authorize_returns idToken act res context w :
  exists r w', authorize E idToken act res context w = (Ok r, w').
Proof.
  destruct (no_token idToken) eqn:Hno.
  - unfold authorize. rewrite Hno. by eexists _, _.
  - apply no_token_false in Hno as (tok & -> & Htok). rewrite authorize_eq by done.
    destruct (verifyIdToken E tok); [|by eexists _, _].
    cbv zeta. destruct (await _ _) as [[d|e] w']; by eexists _, _.
Qed.

(** [handleRequest] once the token is there and the body and the resource
    are made: the outcome of [authorize] decides. *)
Lemma handleRequest_authorize req options routeParams tok body res r w w1 w2 w3 :
  default true (opt_requireAuth options) = true ->
  extractToken req = Some tok ->
  body_stage req options w = (Returned body, w1) ->
  resource_stage req options routeParams body w1 = (Returned res, w2) ->
  authorize E (Some tok) (opt_action options) res
    (Some (auth_context (opt_context options) (getClientIp (req_header req)))) w2
    = (Ok r, w3) ->
  handleRequest E req options routeParams w =
    if auth_allow r then
      h_try (opt_handler options (make_context req routeParams body r))
            (fun error => h_ret (handleError error)) w3
    else (Returned (ApiResponse_fromError (access_denied r)), w3).
Proof.
  intros Hreq Htok Hbody Hres Hauth.
  unfold handleRequest, build_context. rewrite Hreq, Htok.
  rewrite (extractToken_not_empty _ _ Htok). cbn [andb].
  unfold h_try at 1. unfold h_bind at 1. unfold h_bind at 1. rewrite Hbody.
  unfold h_bind at 1. rewrite Hres.
  unfold h_bind at 1. unfold authorize_stage. rewrite Hreq, Htok.
  rewrite (extractToken_not_empty _ _ Htok). cbn [andb negb].
  unfold h_bind at 1. unfold from_M. rewrite Hauth.
  destruct (auth_allow r); cbn [negb]; [|done].
  unfold h_ret at 1. unfold h_ret at 1. unfold h_try.
  by destruct (opt_handler options _ w3) as [[resp|t] w4].
Qed.

(** A request that needs authorization and carries no bearer token is
    answered 401 at once, whatever its body, the resource function, the
    handler and the identity service are; nothing is sent to the policy
    endpoint and the world is left as it was. *)
Theorem missing_token_401 req options routeParams w :
  default true (opt_requireAuth options) = true ->
  extractToken req = None ->
  handleRequest E req options routeParams w
    = (Returned {| resp_status := 401;
                   resp_body := ErrorBody "Missing Authorization Bearer token"
                                  "AUTHENTICATION_ERROR" NoDetails |}, w).
Proof.
  intros Hreq Htok. unfold handleRequest, build_context, h_try, h_bind.
  by rewrite Hreq, Htok.
Qed.

(** The body is checked before the token is: a POST, PATCH or PUT request
    with a bearer token, whatever the token and whatever the identity
    service would say of it, whose JSON body is refused by the schema or
    cannot be parsed is answered 400; nothing is sent to the policy endpoint
    and the world is left as it was. *)
Theorem validation_before_authorization req options routeParams tok contentType w :
  default true (opt_requireAuth options) = true ->
  extractToken req = Some tok ->
  includes ["POST"; "PATCH"; "PUT"] (req_method req) = true ->
  req_header req "content-type" = Some contentType ->
  string_includes "application/json" contentType = true ->
  (forall body safeParse flattened,
     req_json req = Returned body ->
     opt_bodySchema options = Some safeParse ->
     safeParse body = inl flattened ->
     handleRequest E req options routeParams w
       = (Returned {| resp_status := 400;
                      resp_body := ErrorBody "Validation failed" "VALIDATION_ERROR"
                                     (DetailsValue flattened) |}, w)) /\
  (forall message,
     req_json req = Raised (ThrownSyntax message) ->
     handleRequest E req options routeParams w
       = (Returned {| resp_status := 400;
                      resp_body := ErrorBody "Invalid JSON in request body"
                                     "VALIDATION_ERROR" NoDetails |}, w)).
Proof.
  intros Hreq Htok Hmethod Hct Hjson.
  assert (forall t,
            parseBody req (opt_bodySchema options) w = (Raised t, w) ->
            handleRequest E req options routeParams w
              = (Returned (handleError t), w)) as Hraise.
  { intros t Hparse. unfold handleRequest, build_context. rewrite Hreq, Htok.
    rewrite (extractToken_not_empty _ _ Htok). cbn [andb].
    unfold h_try, h_bind, body_stage. by rewrite Hmethod, Hparse. }
  split.
  - intros body safeParse flattened Hbody Hschema Hfail.
    rewrite (Hraise (ThrownApi (ValidationError "Validation failed"
                                  (DetailsValue flattened)))); [done|].
    unfold parseBody. rewrite Hct, Hjson. cbn [negb].
    unfold h_try, h_bind. by rewrite Hbody, Hschema, Hfail.
  - intros message Hbody.
    rewrite (Hraise (ThrownApi (ValidationError "Invalid JSON in request body"
                                  NoDetails))); [done|].
    unfold parseBody. rewrite Hct, Hjson. cbn [negb].
    unfold h_try, h_bind. by rewrite Hbody.
Qed.

(** A handler that needs authorization runs only for a request that was
    authorized: the context it gets holds the bearer token of the request,
    which the identity service verified, the subject and the claims of that
    token, and [authorize] allowed the action on the resource. *)
Theorem handler_context_authorized req options routeParams ctx w w' :
  default true (opt_requireAuth options) = true ->
  build_context E req options routeParams w = (Returned ctx, w') ->
  exists tok decoded res d w2,
    extractToken req = Some tok /\ ctx_idToken ctx = tok /\
    verifyIdToken E tok = Ok decoded /\
    ctx_uid ctx = token_uid decoded /\
    ctx_claims ctx = token_claims decoded /\
    (forall obj, opt_resource options = inl obj -> res = obj) /\
    authorize E (Some tok) (opt_action options) res
      (Some (auth_context (opt_context options) (getClientIp (req_header req)))) w2
      = (Ok (auth_checked true d (token_uid decoded) (token_claims decoded)), w') /\
    allow d = true.
Proof.
  intros Hreq. unfold build_context. rewrite Hreq. cbn [andb].
  destruct (extractToken req) as [tok|] eqn:Htok; [|done].
  rewrite (extractToken_not_empty _ _ Htok).
  unfold h_bind at 1.
  destruct (body_stage req options w) as [[body|t] w1] eqn:Hbody; [|done].
  unfold h_bind at 1.
  destruct (resource_stage req options routeParams body w1) as [[res|t] w2] eqn:Hres;
    [|done].
  unfold h_bind at 1. unfold authorize_stage. rewrite Hreq, Htok.
  rewrite (extractToken_not_empty _ _ Htok). cbn [andb negb].
  unfold h_bind at 1. unfold from_M.
  destruct (authorize E (Some tok) (opt_action options) res _ w2)
    as [[r|e] w3] eqn:Hauth; [|done].
  destruct (auth_allow r) eqn:Hallow; cbn [negb]; [|done].
  unfold h_ret. intros [= <- <-].
  destruct (authorize_allow_shape _ _ _ _ _ _ _ Hauth Hallow)
    as (tok' & decoded & d & [= <-] & Hne & Hverify & -> & Hd & _).
  exists tok, decoded, res, d, w2. cbn.
  split_and!; try done.
  - rewrite Htok. by apply (extractToken_truthy req).
  - by destruct (token_uid decoded).
  - intros obj Hobj. unfold resource_stage in Hres. rewrite Hobj in Hres.
    by injection Hres as ->.
Qed.

(** A request that [authorize] denies is answered 403 with the decision as
    details, whatever the handler is: the handler does not run. *)
Theorem denied_request_403 req options routeParams tok body res r w w1 w2 w3 :
  default true (opt_requireAuth options) = true ->
  extractToken req = Some tok ->
  body_stage req options w = (Returned body, w1) ->
  resource_stage req options routeParams body w1 = (Returned res, w2) ->
  authorize E (Some tok) (opt_action options) res
    (Some (auth_context (opt_context options) (getClientIp (req_header req)))) w2
    = (Ok r, w3) ->
  auth_allow r = false ->
  forall handler,
    handleRequest E req
      {| opt_action := opt_action options; opt_resource := opt_resource options;
         opt_context := opt_context options; opt_bodySchema := opt_bodySchema options;
         opt_requireAuth := opt_requireAuth options; opt_handler := handler |}
      routeParams w
    = (Returned {| resp_status := 403;
                   resp_body := ErrorBody "Access denied" "AUTHORIZATION_ERROR"
                                  (DetailsDecision (auth_decision r)) |}, w3).
Proof.
  intros Hreq Htok Hbody Hres Hauth Hdeny handler.
  rewrite (handleRequest_authorize _ _ _ tok body res r w w1 w2 w3); try done.
  by rewrite Hdeny.
Qed.

(** A bearer token that the identity service does not verify gets 403, not
    401, with [Invalid ID token] as details; the policy endpoint is not
    asked and the handler does not run. *)
Theorem unverified_token_403 req options routeParams tok e body res w w1 w2 :
  default true (opt_requireAuth options) = true ->
  extractToken req = Some tok ->
  verifyIdToken E tok = Throw e ->
  body_stage req options w = (Returned body, w1) ->
  resource_stage req options routeParams body w1 = (Returned res, w2) ->
  handleRequest E req options routeParams w
    = (Returned {| resp_status := 403;
                   resp_body := ErrorBody "Access denied" "AUTHORIZATION_ERROR"
                                  (DetailsDecision (inl "Invalid ID token")) |}, w2).
Proof.
  intros Hreq Htok Hverify Hbody Hres.
  assert (tok <> EmptyString) as Hne.
  { intros ->. by apply extractToken_not_empty in Htok. }
  rewrite (handleRequest_authorize _ _ _ tok body res
             (auth_denied "Invalid ID token") w w1 w2 w2); try done.
  by rewrite authorize_eq, Hverify.
Qed.

(** [withoutAuth] leaves the identity service and the policy endpoint out:
    its outcome is the same whatever they would answer, and the context it
    hands to the handler has the empty subject and no claims, also when the
    request carries a bearer token. *)
Theorem withoutAuth_skips_authorization req options routeParams w :
  (forall E', withoutAuth E req options routeParams w
              = withoutAuth E' req options routeParams w) /\
  (forall ctx w',
     build_context E req
       {| opt_action := opt_action options; opt_resource := opt_resource options;
          opt_context := opt_context options; opt_bodySchema := opt_bodySchema options;
          opt_requireAuth := Some false; opt_handler := opt_handler options |}
       routeParams w = (Returned ctx, w') ->
     ctx_uid ctx = EmptyString /\ ctx_claims ctx = [] /\
     ctx_idToken ctx = default EmptyString (extractToken req)).
Proof.
  split.
  - intros E'. reflexivity.
  - unfold build_context. cbn [opt_requireAuth default andb id].
    unfold h_bind at 1.
    match goal with
    | |- context [body_stage req ?o w] =>
        destruct (body_stage req o w) as [[body|t] w1]; [|done]
    end.
    unfold h_bind at 1.
    match goal with
    | |- context [resource_stage req ?o routeParams body w1] =>
        destruct (resource_stage req o routeParams body w1) as [[res|t] w2]; [|done]
    end.
    unfold h_bind, authorize_stage. cbn [opt_requireAuth default andb id].
    unfold h_ret. intros ctx w' [= <- <-]. cbn. split_and!; try done.
    destruct (extractToken req) as [tok|] eqn:Htok; [|done].
    by apply (extractToken_truthy req).
Qed.


End RequestFacts.

Section ObjectFacts.

Lemma js_get_set_eq k v o : js_get k (js_set k v o) = v.
Proof.
  induction o as [|[k' v'] o IH]; simpl.
  - by rewrite String.eqb_refl.
  - destruct (String.eqb k k') eqn:Hk; simpl.
    + by rewrite String.eqb_refl.
    + by rewrite Hk.
Qed.

Lemma js_get_set_ne k k' v o : k <> k' -> js_get k (js_set k' v o) = js_get k o.
Proof.
  intros Hne. apply String.eqb_neq in Hne.
  induction o as [|[k2 v2] o IH]; simpl.
  - by rewrite Hne.
  - destruct (String.eqb k' k2) eqn:Hk; simpl.
    + apply String.eqb_eq in Hk as <-. by rewrite Hne.
    + by rewrite IH.
Qed.

Lemma js_get_absent k o : k ∉ o.*1 -> js_get k o = JUndefined.
Proof.
  induction o as [|[k' v'] o IH]; [done|]. simpl.
  intros Hnot. apply not_elem_of_cons in Hnot as [Hne Hnot].
  apply String.eqb_neq in Hne as ->. by apply IH.
Qed.

(** [{ ...target, ...source }]: the properties of the source win. *)
Lemma js_get_spread k target source :
  NoDup source.*1 ->
  js_get k (js_spread target source)
    = if decide (k ∈ source.*1) then js_get k source else js_get k target.
Proof.
  unfold js_spread. revert target.
  induction source as [|[k' v'] source IH]; intros target Hnd; [done|].
  apply NoDup_cons in Hnd as [Hfresh Hnd]. simpl. rewrite IH by done.
  destruct (decide (k ∈ source.*1)) as [Hin|Hout].
  - rewrite decide_True by (by right).
    assert (k <> k') as Hne by (by intros ->).
    by apply String.eqb_neq in Hne as ->.
  - destruct (String.eqb k k') eqn:Hk.
    + apply String.eqb_eq in Hk as ->. rewrite decide_True by left.
      apply js_get_set_eq.
    + apply String.eqb_neq in Hk. rewrite decide_False.
      * by apply js_get_set_ne.
      * by intros [?|?]%elem_of_cons.
Qed.

Lemma js_set_keys k v o :
  (js_set k v o).*1 = if decide (k ∈ o.*1) then o.*1 else o.*1 ++ [k].
Proof.
  induction o as [|[k' v'] o IH]; [done|]. cbn [js_set].
  destruct (String.eqb k k') eqn:Hk; rewrite !fmap_cons; cbn [fst].
  - apply String.eqb_eq in Hk as ->. by rewrite decide_True by left.
  - apply String.eqb_neq in Hk. rewrite IH.
    destruct (decide (k ∈ o.*1)) as [Hin|Hout].
    + by rewrite decide_True by (by right).
    + rewrite decide_False; [done|]. by intros [?|?]%elem_of_cons.
Qed.

Lemma js_set_elem_of k k' v o : k ∈ (js_set k' v o).*1 <-> k = k' \/ k ∈ o.*1.
Proof.
  rewrite js_set_keys. destruct (decide (k' ∈ o.*1)) as [Hin|Hout].
  - split; [by right|]. by intros [->|?].
  - rewrite elem_of_app, list_elem_of_singleton. tauto.
Qed.

Lemma js_set_NoDup k v o : NoDup o.*1 -> NoDup (js_set k v o).*1.
Proof.
  intros Hnd. rewrite js_set_keys. destruct (decide (k ∈ o.*1)) as [Hin|Hout]; [done|].
  apply NoDup_app. split_and!; [done| |apply NoDup_singleton].
  intros x Hx ->%list_elem_of_singleton. done.
Qed.

Lemma js_spread_elem_of k target source :
  k ∈ (js_spread target source).*1 <-> k ∈ target.*1 \/ k ∈ source.*1.
Proof.
  unfold js_spread. revert target.
  induction source as [|[k' v'] source IH]; intros target; simpl.
  - rewrite elem_of_nil. tauto.
  - rewrite IH, js_set_elem_of, elem_of_cons. tauto.
Qed.

Lemma js_spread_NoDup target source :
  NoDup target.*1 -> NoDup (js_spread target source).*1.
Proof.
  unfold js_spread. revert target.
  induction source as [|[k' v'] source IH]; intros target Hnd; [done|].
  simpl. apply IH. by apply js_set_NoDup.
Qed.

End ObjectFacts.

Section AuthorizeExtras.

Context (E : Oracle).

(** For an empty list of requests [authorizeAll] answers [true] and
    [authorizeAny] answers [false], whatever the token (none, one that is
    not verified, a good one), and nothing is sent to the endpoint. *)
Theorem authorizeAll_empty_list idToken schedule w :
  exists w',
    authorizeAll E idToken [] schedule w = (Ok (true, []), w') /\
    authorizeAny E idToken [] schedule w = (Ok (false, []), w') /\
    requests w' = requests w.
Proof.
  assert (exists w', authorizeBatch E idToken [] schedule w = (Ok [], w') /\
                     requests w' = requests w) as (w' & Hrun & Hreq).
  { destruct (no_token idToken) eqn:Hno.
    - unfold authorizeBatch. rewrite Hno. by eexists.
    - apply no_token_false in Hno as (tok & -> & Htok).
      rewrite authorizeBatch_eq by done.
      destruct (verifyIdToken E tok); by eexists. }
  exists w'. unfold authorizeAll, authorizeAny, bind. by rewrite Hrun.
Qed.

(** [authorize] fails closed: a result with [allow] set comes from a token
    that the identity service verified, carries the subject and claims of
    that token, and holds a policy decision that allows, taken from an entry
    of the cache or from the endpoint's answer to this check. *)
Theorem authorize_grants_only_verified idToken act res context w r w' :
  authorize E idToken act res context w = (Ok r, w') ->
  auth_allow r = true ->
  exists tok decoded d,
    idToken = Some tok /\ tok <> EmptyString /\
    verifyIdToken E tok = Ok decoded /\
    auth_uid r = Some (token_uid decoded) /\
    auth_claims r = token_claims decoded /\
    auth_decision r = inr d /\ allow d = true /\
    let input :=
      single_input E (token_uid decoded) (token_claims decoded) act res
        (context_ip context) (clock E (clock_reads w)) in
    ((exists entry,
        cache w !! getCacheKey input = Some entry /\ decision entry = d) \/
     answer_outcome (opa E (length (requests w)) input) = Ok d).
Proof.
  intros Hrun Hallow.
  destruct (authorize_allow_shape E _ _ _ _ _ _ _ Hrun Hallow)
    as (tok & decoded & d & -> & Hne & Hverify & -> & Hd & Hq).
  exists tok, decoded, d. split_and!; try done.
  apply await_query_source in Hq as [(entry & ? & ? & _)|[? _]];
    [left; by exists entry|by right].
Qed.

(** [authorizeBatch] fails closed in the same way: a result with [allow] set
    belongs to a verified token and holds, for the request at its position,
    a decision that allows, taken from the cache or from the answer to that
    request's own call. *)
Theorem authorizeBatch_grants_only_verified idToken reqs schedule w rs w' r :
  authorizeBatch E idToken reqs schedule w = (Ok rs, w') ->
  r ∈ rs ->
  auth_allow (auth r) = true ->
  exists tok decoded d req,
    idToken = Some tok /\ tok <> EmptyString /\
    verifyIdToken E tok = Ok decoded /\
    auth_uid (auth r) = Some (token_uid decoded) /\
    auth_claims (auth r) = token_claims decoded /\
    auth_decision (auth r) = inr d /\ allow d = true /\
    reqs !! auth_index r = Some req /\
    let input :=
      item_input (token_uid decoded) (token_claims decoded)
        (toISOString E (clock E (clock_reads w)))
        (context_ip (head reqs ≫= req_context))
        {| item_action := req_action req; item_resource := req_resource req |} in
    ((exists entry,
        cache w !! getCacheKey input = Some entry /\ decision entry = d) \/
     exists k,
       requests w' !! (length (requests w) + k) = Some (decision_url (opaService E), input) /\
       answer_outcome (opa E (length (requests w) + k) input) = Ok d).
Proof.
  intros Hrun Hin Hallow.
  destruct (no_token idToken) eqn:Hno.
  { unfold authorizeBatch in Hrun. rewrite Hno in Hrun. injection Hrun as <- _.
    apply list_elem_of_lookup in Hin as [i Hi]. rewrite list_lookup_imap in Hi.
    destruct (reqs !! i); [|done]. injection Hi as <-. done. }
  apply no_token_false in Hno as (tok & -> & Htok).
  rewrite authorizeBatch_eq in Hrun by done.
  destruct (verifyIdToken E tok) as [decoded|e] eqn:Hverify; last first.
  { injection Hrun as <- _. apply list_elem_of_lookup in Hin as [i Hi].
    by apply all_denied_lookup in Hi as ->. }
  cbv zeta in Hrun.
  destruct (queryBatch_results E (opaService E) (token_uid decoded)
              (token_claims decoded) (to_items reqs)
              (context_ip (head reqs ≫= req_context)) w)
    as (hits & misses & w1 & results & _ & Hsh & _ & _ & _ & Hidx & Hpos & _ & Hq).
  destruct (Hq schedule) as (w'' & Hq' & Hreq & _).
  rewrite Hq' in Hrun. injection Hrun as <- <-.
  apply list_elem_of_lookup in Hin as [i Hi]. rewrite list_lookup_fmap in Hi.
  destruct (results !! i) as [res|] eqn:Hres; [|done]. injection Hi as <-.
  simpl in Hallow |- *.
  pose proof (lookup_lt_Some _ _ _ Hres) as Hlt.
  rewrite <- (length_map index), Hidx, length_seq in Hlt.
  apply lookup_lt_is_Some in Hlt as [item Hitem].
  destruct (Hpos i item Hitem) as (res' & Hres' & Hir & Hfrom).
  rewrite Hres in Hres'. injection Hres' as <-.
  unfold to_items in Hitem. rewrite list_lookup_fmap in Hitem.
  destruct (reqs !! i) as [req|] eqn:Hreqi; [|done]. injection Hitem as <-.
  destruct Hsh as [Hreq1 _]. simpl in Hreq. rewrite Hreq1 in Hreq.
  destruct Hfrom as [(entry & Hentry & ->)|(k & Hk & ->)].
  - exists tok, decoded, (decision entry), req. simpl in *.
    split_and!; try done. left. by exists entry.
  - destruct (answer_outcome _) as [d|e] eqn:Hans; [|done]. simpl in *.
    exists tok, decoded, d, req. split_and!; try done. right. exists k.
    split; [|done]. rewrite Hreq, lookup_app_r by lia.
    replace (length (requests w) + k - length (requests w)) with k by lia.
    by rewrite list_lookup_fmap, Hk.
Qed.

(** The claims that go with a verified token.  Their own properties are
    the four that [verifyToken] names itself and the fields of the decoded
    token, each once.  Every field of the token is there with the token's
    value: the four named properties never shadow a field of the token.
    [emailVerified] holds the token's [email_verified] unless the token has
    a field of that very name, and [email], [name] and [picture] hold
    [undefined] when the token has no such field. *)
Theorem verifyToken_claims tok decoded w :
  verifyIdToken E tok = Ok decoded ->
  NoDup (token_fields decoded).*1 ->
  let fields := token_fields decoded in
  exists claims,
    verifyToken E tok w = (Ok (token_uid decoded, claims), w) /\
    NoDup claims.*1 /\
    (forall k, k ∈ claims.*1 <->
               k ∈ ["email"; "emailVerified"; "name"; "picture"] \/ k ∈ fields.*1) /\
    (forall k, k ∈ fields.*1 -> js_get k claims = js_get k fields) /\
    ("emailVerified" ∉ fields.*1 ->
       js_get "emailVerified" claims = js_get "email_verified" fields) /\
    (forall k, k ∈ ["email"; "name"; "picture"] -> k ∉ fields.*1 ->
       js_get k claims = JUndefined).
Proof.
  intros Hverify Hnd fields. exists (token_claims decoded).
  rewrite verifyToken_eq, Hverify. split; [done|].
  unfold token_claims. fold fields. split_and!.
  - apply js_spread_NoDup. simpl.
    apply NoDup_ListNoDup. repeat constructor; simpl; intuition discriminate.
  - intros k. by rewrite js_spread_elem_of.
  - intros k Hk. rewrite js_get_spread by done. by rewrite decide_True.
  - intros Hout. rewrite js_get_spread by done. by rewrite decide_False.
  - intros k Hk Hout. rewrite js_get_spread by done. rewrite decide_False by done.
    apply elem_of_cons in Hk as [->|Hk]; [simpl; by apply js_get_absent|].
    apply elem_of_cons in Hk as [->|Hk]; [simpl; by apply js_get_absent|].
    apply list_elem_of_singleton in Hk as ->. simpl. by apply js_get_absent.
Qed.

(** Of the contexts of a batch only the [ip] of the first request's is
    read: two lists of requests with the same actions and resources, whose
    first contexts have the same [ip], are authorized alike, whatever the
    other contexts hold. *)
Theorem authorizeBatch_reads_first_ip idToken reqs reqs' schedule w :
  to_items reqs = to_items reqs' ->
  context_ip (head reqs ≫= req_context) = context_ip (head reqs' ≫= req_context) ->
  authorizeBatch E idToken reqs schedule w = authorizeBatch E idToken reqs' schedule w.
Proof.
  intros Hitems Hip.
  assert (forall msg, all_denied msg reqs = all_denied msg reqs') as Hdenied.
  { intros msg. apply list_eq. intros i. unfold all_denied.
    rewrite !list_lookup_imap.
    assert (length reqs = length reqs') as Hlen.
    { pose proof (f_equal length Hitems) as Hl. unfold to_items in Hl.
      by rewrite !length_map in Hl. }
    destruct (reqs !! i) as [r|] eqn:Hr.
    - apply lookup_lt_Some in Hr. rewrite Hlen in Hr.
      by apply lookup_lt_is_Some in Hr as [r' ->].
    - apply lookup_ge_None_1 in Hr. rewrite Hlen in Hr.
      apply lookup_ge_None_2 in Hr. by rewrite Hr. }
  destruct (no_token idToken) eqn:Hno.
  - unfold authorizeBatch. rewrite Hno. unfold ret. f_equal. f_equal.
    apply (Hdenied "no-token").
  - apply no_token_false in Hno as (tok & -> & Htok).
    rewrite !authorizeBatch_eq by done. rewrite Hitems, Hip.
    destruct (verifyIdToken E tok) as [decoded|e]; [|by rewrite Hdenied].
    cbv zeta. destruct (queryBatch _ _ _ _ _ _ _ _) as [[results|e] w'];
      [done|by rewrite Hdenied].
Qed.

End AuthorizeExtras.

Section ContextFacts.

Context (E : Oracle).

(** The [context] option of a handler never reaches the policy: the [ip] of
    the policy input is the client address read from the headers, or
    [null], and the request is handled alike whatever [context] is. *)
Theorem handler_context_option_unused req options routeParams context' w :
  or_null (context_ip (Some (auth_context (opt_context options)
                               (getClientIp (req_header req)))))
    = match getClientIp (req_header req) with
      | Some ip => JString ip
      | None => JNull
      end /\
  handleRequest E req options routeParams w
    = handleRequest E req
        {| opt_action := opt_action options; opt_resource := opt_resource options;
           opt_context := context'; opt_bodySchema := opt_bodySchema options;
           opt_requireAuth := opt_requireAuth options;
           opt_handler := opt_handler options |}
        routeParams w.
Proof.
  assert (forall c, context_ip (Some (auth_context c (getClientIp (req_header req))))
                    = match getClientIp (req_header req) with
                      | Some ip => JString ip
                      | None => JNull
                      end) as Hip.
  { intros c. unfold context_ip, auth_context. apply js_get_set_eq. }
  split.
  - rewrite Hip. by destruct (getClientIp _).
  - unfold handleRequest, build_context, authorize_stage, authorize.
    cbn [opt_action opt_resource opt_context opt_bodySchema opt_requireAuth
           opt_handler].
    by rewrite !Hip.
Qed.

End ContextFacts.

(** ** Instances *)

Section ExtraInstances.

Import Examples RequestExamples.

Lemma cacheDecision_then_lookup_witness :
  exists w',
    getCachedDecision E1 svc "k"
      (cacheDecision E1 svc "k" deny_no (cacheDecision E1 svc "k" allow_ok w0).2).2
      = (Ok (Some deny_no), w').
Proof.
  destruct (cacheDecision_then_lookup E1 svc "k" allow_ok deny_no w0 eq_refl eq_refl)
    as [Hlook _].
  eexists. exact Hlook.
Defined.

Lemma zero_ttl_never_serves_witness :
  exists w2,
    getCachedDecision E1 svc_zero "k" (cacheDecision E1 svc_zero "k" allow_ok w0).2
      = (Ok None, w2) /\
    cache w2 !! "k" = None.
Proof.
  apply (zero_ttl_never_serves E1 svc_zero "k" allow_ok w0 eq_refl).
  - discriminate.
  - intros n m Hnm. simpl. lia.
Defined.

Lemma query_after_expiry_witness :
  exists w',
    await (query E1 svc (vote_input "a")) w_stale = (Ok allow_ok, w') /\
    length (requests w') = 2 /\
    cache w' !! getCacheKey (vote_input "a")
      = Some {| decision := allow_ok; expiry := 72000 |}.
Proof.
  destruct (query_after_expiry E1 svc (vote_input "a")
              {| decision := allow_ok; expiry := 31000 |} w_stale
              eq_refl eq_refl ltac:(vm_compute; discriminate))
    as (w' & Hrun & Hreq & Hstored & _).
  exists w'. split; [exact Hrun|]. split.
  - rewrite Hreq. reflexivity.
  - apply (Hstored allow_ok). reflexivity.
Defined.

Lemma cache_disabled_inert_witness :
  exists w1 w2,
    await (query E1 svc_off check1) w0 = (Ok allow_ok, w1) /\
    await (query E1 svc_off check1) w1 = (Ok allow_ok, w2) /\
    length (requests w2) = 2 /\ cache w2 = ∅.
Proof.
  destruct (cache_disabled_inert E1 svc_off eq_refl) as [Hquery _].
  eexists _, _. split; [apply Hquery|]. split; [apply Hquery|]. by split.
Defined.


Lemma authorize_grants_only_verified_witness :
  exists r w',
    authorize E1 (Some "good") "vote_post" [("id", JString "a")] None w0 = (Ok r, w') /\
    auth_allow r = true /\ auth_uid r = Some "u2" /\ auth_decision r = inr allow_ok.
Proof.
  destruct (authorize E1 (Some "good") "vote_post" [("id", JString "a")] None w0)
    as [[r|e] w'] eqn:Hrun; [|vm_compute in Hrun; discriminate Hrun].
  assert (auth_allow r = true) as Hallow.
  { vm_compute in Hrun. by injection Hrun as <- _. }
  destruct (authorize_grants_only_verified E1 _ _ _ _ _ _ _ Hrun Hallow)
    as (tok & decoded & d & [= <-] & _ & Hverify & Huid & _ & Hdec & _ & Hfrom).
  injection Hverify as <-.
  destruct Hfrom as [(entry & Hentry & _)|Hans]; [discriminate Hentry|].
  injection Hans as <-. by exists r, w'.
Defined.

Lemma authorizeBatch_grants_only_verified_witness :
  exists rs w' r,
    authorizeBatch E1 (Some "good") [vote "a"; vote "b"] [1; 0] w0 = (Ok rs, w') /\
    rs !! 0 = Some r /\ auth_allow (auth r) = true /\
    auth_uid (auth r) = Some "u2" /\ auth_index r = 0.
Proof.
  destruct (authorizeBatch E1 (Some "good") [vote "a"; vote "b"] [1; 0] w0)
    as [[rs|e] w'] eqn:Hrun; [|vm_compute in Hrun; discriminate Hrun].
  assert (exists r, rs !! 0 = Some r /\ auth_allow (auth r) = true /\ auth_index r = 0)
    as (r & Hr & Hallow & Hindex).
  { vm_compute in Hrun. injection Hrun as <- _. by eexists. }
  destruct (authorizeBatch_grants_only_verified E1 _ _ _ _ _ _ r Hrun
              (list_elem_of_lookup_2 _ _ _ Hr) Hallow)
    as (tok & decoded & d & req & [= <-] & _ & Hverify & Huid & _).
  injection Hverify as <-. by exists rs, w', r.
Defined.

Lemma getClientIp_result_witness :
  getClientIp (req_header (vote_request None "a" up)) = Some "10.0.0.1" /\
  trim "10.0.0.1" = "10.0.0.1".
Proof.
  split; [reflexivity|].
  destruct (getClientIp_result (req_header (vote_request None "a" up)) "10.0.0.1"
              eq_refl)
    as [_ [(value & first & rest & _ & _ & _ & Htrim & _)|[Hreal _]]].
  - exact Htrim.
  - discriminate Hreal.
Defined.

Lemma extractParams_routes_witness :
  extractParams "/api/posts/ban" = [] /\
  extractParams "/api/posts/123" = [("id", "123")] /\
  extractParams "/api/posts/123/vote" = [("id", "123")] /\
  extractParams "/api/posts/123/comments/456" = [("id", "456")].
Proof.
  destruct (extractParams_routes "posts" "ban" eq_refl eq_refl) as [Haction _].
  destruct (extractParams_routes "posts" "123" eq_refl eq_refl) as [_ Hid].
  destruct (Hid eq_refl) as (Hplain & Hthen & Hinner).
  split; [exact (Haction eq_refl)|]. split; [exact Hplain|].
  split; [exact (Hthen "vote" eq_refl)|].
  exact (Hinner "comments" "456" eq_refl eq_refl eq_refl).
Defined.

Lemma missing_token_401_witness :
  exists resp,
    handleRequest E1 (vote_request None "a" up) vote_options None w0
      = (Returned resp, w0) /\
    resp_status resp = 401%Z.
Proof.
  eexists. split; [|shelve].
  apply (missing_token_401 E1 (vote_request None "a" up) vote_options None w0);
    reflexivity.
  Unshelve. reflexivity.
Defined.

Lemma validation_before_authorization_witness :
  handleRequest E1 (vote_request (Some "Bearer bad") "a" (JObject [])) vote_options
    None w0
  = (Returned {| resp_status := 400;
                 resp_body :=
                   ErrorBody "Validation failed" "VALIDATION_ERROR"
                     (DetailsValue
                        (JObject [("formErrors", JArray [JString "Invalid input"])])) |},
     w0).
Proof.
  destruct (validation_before_authorization E1
              (vote_request (Some "Bearer bad") "a" (JObject [])) vote_options None
              "bad" "application/json; charset=utf-8" w0
              eq_refl eq_refl eq_refl eq_refl eq_refl) as [Hschema _].
  exact (Hschema (JObject []) vote_schema _ eq_refl eq_refl eq_refl).
Defined.

Lemma handler_context_authorized_witness :
  exists ctx w',
    build_context E1 (vote_request (Some "Bearer good") "a" up) vote_options None w0
      = (Returned ctx, w') /\
    ctx_uid ctx = "u2" /\ ctx_idToken ctx = "good" /\ ctx_params ctx = [("id", "a")].
Proof.
  destruct (build_context E1 (vote_request (Some "Bearer good") "a" up) vote_options
              None w0) as [[ctx|t] w'] eqn:Hrun;
    [|vm_compute in Hrun; discriminate Hrun].
  destruct (handler_context_authorized E1
              (vote_request (Some "Bearer good") "a" up) vote_options None ctx w0 w'
              eq_refl Hrun)
    as (tok & decoded & res & d & w2 & Htok & Hid & Hverify & Huid & _).
  injection Htok as <-. injection Hverify as <-.
  exists ctx, w'. split; [done|]. split; [exact Huid|]. split; [exact Hid|].
  vm_compute in Hrun. by injection Hrun as <- _.
Defined.

Lemma denied_request_403_witness :
  exists w',
    handleRequest E1 (vote_request (Some "Bearer good") "b" up) vote_options None w0
      = (Returned {| resp_status := 403;
                     resp_body := ErrorBody "Access denied" "AUTHORIZATION_ERROR"
                                    (DetailsDecision (inr deny_no)) |}, w') /\
    length (requests w') = 1.
Proof.
  destruct (authorize E1 (Some "good") "vote_post" [("id", JString "b")]
              (Some (auth_context None (Some "10.0.0.1"))) w0)
    as [[r|e] w'] eqn:Hauth; [|vm_compute in Hauth; discriminate Hauth].
  assert (r = auth_checked false deny_no "u2" [("email", JUndefined);
            ("emailVerified", JUndefined); ("name", JUndefined);
            ("picture", JUndefined); ("uid", JString "u2")] /\
          length (requests w') = 1) as [Hr Hsent].
  { vm_compute in Hauth. by injection Hauth as <- <-. }
  exists w'. split; [|exact Hsent].
  pose proof (denied_request_403 E1 (vote_request (Some "Bearer good") "b" up)
                vote_options None "good" (Some up) [("id", JString "b")] r
                w0 w0 w0 w' eq_refl eq_refl eq_refl eq_refl Hauth
                ltac:(by rewrite Hr) (opt_handler vote_options)) as Hdenied.
  rewrite Hr in Hdenied. exact Hdenied.
Defined.

Lemma unverified_token_403_witness :
  handleRequest E1 (vote_request (Some "Bearer bad") "a" up) vote_options None w0
    = (Returned {| resp_status := 403;
                   resp_body := ErrorBody "Access denied" "AUTHORIZATION_ERROR"
                                  (DetailsDecision (inl "Invalid ID token")) |}, w0).
Proof.
  exact (unverified_token_403 E1 (vote_request (Some "Bearer bad") "a" up)
           vote_options None "bad" (JsError "bad signature") (Some up)
           [("id", JString "a")] w0 w0 w0 eq_refl eq_refl eq_refl eq_refl eq_refl).
Defined.

Lemma verifyToken_claims_witness :
  exists claims,
    verifyToken E2 "good" w0 = (Ok ("u2", claims), w0) /\
    js_get "emailVerified" claims = JBool true /\
    js_get "email" claims = JString "u2@example.org".
Proof.
  assert (NoDup ["uid"; "email"; "email_verified"]) as Hnd.
  { apply NoDup_ListNoDup. repeat constructor; simpl; intuition discriminate. }
  destruct (verifyToken_claims E2 "good" _ w0 eq_refl Hnd)
    as (claims & Hrun & _ & _ & Hfields & Hverified & _).
  exists claims. split; [exact Hrun|]. split.
  - rewrite Hverified; [reflexivity|].
    intros Hin. apply list_elem_of_In in Hin. simpl in Hin. intuition discriminate.
  - rewrite (Hfields "email"); [reflexivity|].
    apply list_elem_of_In. simpl. tauto.
Defined.

Lemma authorizeBatch_reads_first_ip_witness :
  authorizeBatch E1 (Some "good") [vote_from "10.0.0.1" "a"; vote_from "10.0.0.2" "b"]
    [] w0
  = authorizeBatch E1 (Some "good") [vote_from "10.0.0.1" "a"; vote "b"] [] w0.
Proof.
  apply (authorizeBatch_reads_first_ip E1 (Some "good")
           [vote_from "10.0.0.1" "a"; vote_from "10.0.0.2" "b"]
           [vote_from "10.0.0.1" "a"; vote "b"] [] w0); reflexivity.
Defined.

End ExtraInstances.
